(** * Generation loop, sampler and text streamer of the OpenVINO GenAI samples

    A shallow embedding of
    - the speculative-decoding sample ([TextStreamer], [convert_to_vector],
      [append_element], the decode loop of [main]), and
    - the Qwen backend ([get_out_token_id], [api_interface]),
    followed by the properties proved about them.

    Conventions.  C++ integers are [Z] (or [nat] for sizes and indices),
    [float]/[double] values are rationals [Q]: finite floats are rationals
    and their comparison is the comparison of rationals; rounding is not
    represented.  Text is a list of bytes.  A computation whose C++ source
    reads outside a buffer or dereferences a null pointer returns [None]
    (or [Undefined] where loops are involved). *)

From Stdlib Require Import ZArith QArith Qround Lia.
From Stdlib Require Import Strings.Byte.
From stdpp Require Import base option list.

#[global] Instance byte_eq_decision : EqDecision byte := Byte.byte_eq_dec.

(** ** [TextStreamer] *)

Module TextStreamer.

(** ['\n'] *)
Definition newline : byte := x0a.

(** The UTF-8 encoding of U+FFFD, the three bytes the source compares with. *)
Definition replacement_marker : list byte := [xef; xbf; xbd].

(** [!text.empty() && '\n' == text.back()] *)
Definition ends_with_newline (text : list byte) : bool :=
  match last text with
  | Some c => Byte.eqb newline c
  | None => false
  end.

(** [text.size() >= 3 && text.compare(text.size() - 3, 3, marker) == 0] *)
Definition ends_with_marker (text : list byte) : bool :=
  (3 <=? length text)
  && bool_decide (drop (length text - 3) text = replacement_marker).

(** [std::string_view{text.data() + print_len, text.size() - print_len}]:
    the length is a [size_t] difference, so a [print_len] beyond the end of
    [text] makes the view read outside the buffer. *)
Definition string_view (text : list byte) (print_len : nat) : option (list byte) :=
  if print_len <=? length text then Some (drop print_len text) else None.

Record t := mk {
  token_cache : list Z;
  print_len : nat
}.

Definition init : t := {| token_cache := []; print_len := 0 |}.

Inductive call := Put (token : Z) | End.

Section Streamer.

(** The detokenizer is an inference request compiled from a model file:
    any function from token ids to text. *)
Variable detokenize : list Z -> list byte.

(** [put] returns the new state and what was written to [std::cout]. *)
Definition put (s : t) (token : Z) : option (t * list byte) :=
  let cache := token_cache s ++ [token] in
  let text := detokenize cache in
  if ends_with_newline text then
    out ← string_view text (print_len s);
    Some ({| token_cache := []; print_len := 0 |}, out)
  else if ends_with_marker text then
    Some ({| token_cache := cache; print_len := print_len s |}, [])
  else
    out ← string_view text (print_len s);
    Some ({| token_cache := cache; print_len := length text |}, out).

Definition end_ (s : t) : option (t * list byte) :=
  let text := detokenize (token_cache s) in
  out ← string_view text (print_len s);
  Some ({| token_cache := []; print_len := 0 |}, out ++ [newline]).

Definition step (s : t) (c : call) : option (t * list byte) :=
  match c with
  | Put token => put s token
  | End => end_ s
  end.

(** A sequence of calls, with everything written to [std::cout]. *)
Fixpoint run (s : t) (cs : list call) : option (t * list byte) :=
  match cs with
  | [] => Some (s, [])
  | c :: cs' =>
      '(s1, out1) ← step s c;
      '(s2, out2) ← run s1 cs';
      Some (s2, out1 ++ out2)
  end.

(** The way [main] uses the streamer: one [put] per token, then [end]. *)
Definition stream (tokens : list Z) : option (list byte) :=
  snd <$> run init ((Put <$> tokens) ++ [End]).

(** [printed_length <= length (decode token_cache)] *)
Definition invariant (s : t) : Prop :=
  print_len s <= length (detokenize (token_cache s)).

(** The invariant in the form that survives a withheld token: the printed
    length fits the text of every extension of the cache. *)
Definition fits_extensions (s : t) : Prop :=
  forall ext, print_len s <= length (detokenize (token_cache s ++ ext)).

(** What the streamer needs from a detokenizer. *)

(** A text that was printed (it ends neither in a newline nor in the
    marker) is not longer than the text of any longer cache. *)
Definition length_stable : Prop :=
  forall cache ext,
    ¬ [newline] `suffix_of` detokenize cache ->
    ¬ replacement_marker `suffix_of` detokenize cache ->
    length (detokenize cache) <= length (detokenize (cache ++ ext)).

(** A text that was printed stays a prefix of the text of any longer cache. *)
Definition prefix_stable : Prop :=
  forall cache ext,
    ¬ [newline] `suffix_of` detokenize cache ->
    ¬ replacement_marker `suffix_of` detokenize cache ->
    detokenize cache `prefix_of` detokenize (cache ++ ext).

(** Decoding may be restarted after a text that ends in a newline. *)
Definition newline_split : Prop :=
  forall cache rest,
    [newline] `suffix_of` detokenize cache ->
    detokenize (cache ++ rest) = detokenize cache ++ detokenize rest.

(** A call after which the source clears the cache: [end], or a [put]
    whose text ends in a newline. *)
Definition flushes (s : t) (c : call) : Prop :=
  match c with
  | Put token => [newline] `suffix_of` detokenize (token_cache s ++ [token])
  | End => True
  end.

End Streamer.

(** [occurs pat text]: [pat] is a contiguous part of [text]. *)
Fixpoint occurs (pat text : list byte) : bool :=
  bool_decide (take (length pat) text = pat)
  || match text with
     | [] => false
     | _ :: text' => occurs pat text'
     end.

(** *** Detokenizers to run the streamer on *)

(** A small vocabulary: token 3 is the first half of a glyph, token 5 a
    lone UTF-8 lead byte. *)
Definition piece (token : Z) : list byte :=
  match token with
  | 1 => [x61; x62; x63; x64]      (* abcd *)
  | 2 => [x62; x0a]                (* b, newline *)
  | 3 => replacement_marker
  | 4 => [x20; x63]                (* space, c *)
  | 5 => [xe4]
  | _ => []
  end%Z.

(** Pieces joined as they are. *)
Definition concat_detokenize (tokens : list Z) : list byte :=
  concat (piece <$> tokens).

(** The behaviour the source comments on: the detokenizer removes the
    starting space of the text. *)
Definition strip_leading_space (text : list byte) : list byte :=
  match text with
  | x20 :: text' => text'
  | _ => text
  end.

Definition space_stripping_detokenize (tokens : list Z) : list byte :=
  strip_leading_space (concat (piece <$> tokens)).

(** A detokenizer that answers an undecodable byte string with the
    placeholder alone. *)
Definition is_ascii (b : byte) : bool := (Byte.to_N b <? 128)%N.

Definition strict_detokenize (tokens : list Z) : list byte :=
  let bytes := concat (piece <$> tokens) in
  if forallb is_ascii bytes then bytes else replacement_marker.

End TextStreamer.

(** ** Sampling *)

(** [struct params]: the fields the generation code reads. *)
Record params := {
  n_ctx : Z;
  n_predict : Z;
  do_sample : bool;
  top_k : Z;
  top_p : Q;
  temperature : Q;
  repeat_penalty : Q;
  repeat_last_n : Z;
  seed : Z
}.

(** What the code takes from the C++ standard library: [std::exp],
    [std::mt19937] with its seeding constructor, and one draw of a
    [std::discrete_distribution] built from a range of weights. *)
Class StdRuntime := {
  exp : Q -> Q;
  mt19937 : Type;
  mt19937_seed : Z -> mt19937;
  discrete_distribution : list Q -> mt19937 -> nat * mt19937
}.

(** A draw over [n] weights is an index below [n]. *)
Definition draws_in_range `{StdRuntime} : Prop :=
  forall (weights : list Q) (g : mt19937),
    weights <> [] -> (discrete_distribution weights g).1 < length weights.

Module Sampling.

(** [a < b] on floats *)
Definition Qltb (a b : Q) : bool := negb (Qle_bool b a).

(** [std::max_element(first, last) - first]: the scan keeps the first
    largest element; on an empty range it returns [first]. *)
Fixpoint max_element_from (largest : nat) (largest_val : Q) (i : nat) (l : list Q) : nat :=
  match l with
  | [] => largest
  | x :: l' =>
      if Qltb largest_val x then max_element_from i x (S i) l'
      else max_element_from largest largest_val (S i) l'
  end.

Definition max_element (l : list Q) : nat :=
  match l with
  | [] => 0
  | x :: l' => max_element_from 0 x 1 l'
  end.

Record TokenIdScore := { id : Z; score : Q }.

(** *** The functions of [sampling.hpp] *)

(** Modelled from the spec: [sampling_repetition_penalty] is declared in
    sampling.hpp, which is not among the sources.  For each of the last
    [n] tokens of the history, the logit of the token is divided by the
    penalty if it is positive and multiplied by it otherwise. *)
Definition penalize (penalty x : Q) : Q :=
  if Qltb 0%Q x then (x / penalty)%Q else (x * penalty)%Q.

Definition penalize_token (penalty : Q) (logits : list Q) (token : Z) : list Q :=
  if (0 <=? token)%Z then alter (penalize penalty) (Z.to_nat token) logits
  else logits.

Definition sampling_repetition_penalty
    (logits : list Q) (history_ids : list Z) (n : Z) (penalty : Q) : list Q :=
  foldl (penalize_token penalty) logits
        (drop (length history_ids - Z.to_nat n) history_ids).

(** Modelled from the spec: [sampling_temperature] (sampling.hpp) divides
    all logits by the temperature. *)
Definition sampling_temperature (logits : list Q) (temp : Q) : list Q :=
  (fun x => (x / temp)%Q) <$> logits.

(** Modelled from the spec: [sampling_top_k] (sampling.hpp) brings the
    highest-scoring pairs to the front, ties by original index ascending;
    the caller cuts the vector to [top_k].  The model orders the whole
    vector, so it does not need the position [top_k]. *)
Fixpoint insert_desc (x : TokenIdScore) (l : list TokenIdScore) : list TokenIdScore :=
  match l with
  | [] => [x]
  | y :: l' =>
      if Qle_bool (score y) (score x) then x :: y :: l'
      else y :: insert_desc x l'
  end.

Definition sort_desc (l : list TokenIdScore) : list TokenIdScore :=
  foldr insert_desc [] l.

Definition sampling_top_k (token_scores : list TokenIdScore) : list TokenIdScore :=
  sort_desc token_scores.

Definition Qsum (l : list Q) : Q := foldr Qplus 0%Q l.

Section WithRuntime.

Context `{StdRuntime}.

Definition softmax (scores : list Q) : list Q :=
  let es := exp <$> scores in
  (fun e => (e / Qsum es)%Q) <$> es.

(** Modelled from the spec: [sampling_softmax_inplace] (sampling.hpp)
    replaces the scores by their softmax. *)
Definition sampling_softmax_inplace (token_scores : list TokenIdScore) : list TokenIdScore :=
  zip_with (fun ts q => {| id := id ts; score := q |})
           token_scores (softmax (score <$> token_scores)).

(** Number of leading probabilities taken until the running sum reaches
    [top_p], the one that crosses it included. *)
Fixpoint nucleus_size (probs : list Q) (top_p acc : Q) : nat :=
  match probs with
  | [] => 0
  | q :: probs' =>
      if Qle_bool top_p (acc + q)%Q then 1
      else S (nucleus_size probs' top_p (acc + q)%Q)
  end.

(** Modelled from the spec: [sampling_top_p] (sampling.hpp) sorts the pairs
    by descending score, accumulates their softmax probabilities until the
    sum is at least [top_p] and returns the position after the pair that
    crosses it.  The result is the reordered vector and that position. *)
Definition sampling_top_p (token_scores : list TokenIdScore) (top_p : Q)
  : list TokenIdScore * nat :=
  let sorted := sort_desc token_scores in
  (sorted, nucleus_size (softmax (score <$> sorted)) top_p 0%Q).

(** *** [get_out_token_id] *)

(** The block under "logits pre-process": it runs before the test of
    [do_sample], in place on the logits buffer. *)
Definition logits_pre_process (history_ids : list Z) (logits : list Q) (p : params) : list Q :=
  if negb (Qeq_bool (repeat_penalty p) 1%Q) then
    let penalty_tokens_used_size :=
      Z.min (Z.of_nat (length history_ids)) (repeat_last_n p) in
    if negb (penalty_tokens_used_size =? 0)%Z then
      sampling_repetition_penalty logits history_ids penalty_tokens_used_size
                                  (repeat_penalty p)
    else logits
  else logits.

(** [token_scores] after the top-k and the top-p blocks; [logits] is the
    buffer after the temperature step. *)
Definition candidates (logits : list Q) (p : params) : list TokenIdScore :=
  let token_scores := imap (fun i x => {| id := Z.of_nat i; score := x |}) logits in
  let token_scores :=
    if (0 <? top_k p)%Z && (top_k p <? Z.of_nat (length token_scores))%Z
    then take (Z.to_nat (top_k p)) (sampling_top_k token_scores)
    else token_scores in
  if Qltb 0%Q (top_p p) && Qltb (top_p p) 1%Q
  then let '(sorted, pos) := sampling_top_p token_scores (top_p p) in
       take pos sorted
  else token_scores.

(** [logits] is the buffer [logits, logits + vocab_size); [rng] is the
    [thread_local] generator, [None] until the sampling branch is first
    reached.  The result is the token, the buffer as the call leaves it and
    the generator; [None] when [token_scores] is indexed outside its
    bounds. *)
Definition get_out_token_id
    (rng : option mt19937) (history_ids : list Z) (logits : list Q) (p : params)
  : option (Z * list Q * option mt19937) :=
  let logits := logits_pre_process history_ids logits p in
  if do_sample p then
    let logits :=
      if Qltb 0%Q (temperature p) then sampling_temperature logits (temperature p)
      else logits in
    let token_scores := sampling_softmax_inplace (candidates logits p) in
    let weights := score <$> token_scores in
    let logits := weights ++ drop (length weights) logits in
    let g := default (mt19937_seed (seed p)) rng in
    let '(k, g) := discrete_distribution weights g in
    ts ← token_scores !! k;
    Some (id ts, logits, Some g)
  else
    Some (Z.of_nat (max_element logits), logits, rng).

End WithRuntime.

(** [i] is the position of the largest element of [l], the first one
    among equals. *)
Definition first_maximum (l : list Q) (i : nat) : Prop :=
  exists m, l !! i = Some m
    /\ (forall j x, l !! j = Some x -> (x <= m)%Q)
    /\ (forall j x, j < i -> l !! j = Some x -> (x < m)%Q).

(** Every candidate names a position of the buffer. *)
Definition ids_below (n : nat) (token_scores : list TokenIdScore) : Prop :=
  Forall (fun ts => (0 <= id ts < Z.of_nat n)%Z) token_scores.

(** A runtime to evaluate the sampler on: a power of two for [std::exp]
    and a counter for the generator. *)
Definition example_runtime : StdRuntime := {|
  exp := fun x => Qpower 2%Q (Qfloor x);
  mt19937 := Z;
  mt19937_seed := fun s => s;
  discrete_distribution := fun weights g =>
    (Z.to_nat (g mod Z.of_nat (length weights)), (g + 1)%Z)
|}.

Definition greedy (penalty : Q) (last_n : Z) : params := {|
  n_ctx := 2048; n_predict := 512; do_sample := false;
  top_k := 40; top_p := (9 # 10)%Q; temperature := (1 # 5)%Q;
  repeat_penalty := penalty; repeat_last_n := last_n; seed := -1
|}.

Definition sampled (k : Z) (p : Q) (s : Z) : params := {|
  n_ctx := 2048; n_predict := 512; do_sample := true;
  top_k := k; top_p := p; temperature := (1 # 2)%Q;
  repeat_penalty := (11 # 10)%Q; repeat_last_n := 32; seed := s
|}.

End Sampling.

(** ** Outcomes of the loops *)

(** A run ends with a value, or reads outside a buffer or through a null
    pointer ([Undefined]), or is cut by the fuel given to a [while] loop
    ([OutOfFuel]). *)
Inductive result (A : Type) : Type :=
  | Ok (a : A)
  | Undefined
  | OutOfFuel.

Arguments Ok {A} a.
Arguments Undefined {A}.
Arguments OutOfFuel {A}.

#[global] Instance result_ret : MRet result := @Ok.

#[global] Instance result_bind : MBind result := fun A B f m =>
  match m with
  | Ok a => f a
  | Undefined => Undefined
  | OutOfFuel => OutOfFuel
  end.

Definition of_option {A : Type} (o : option A) : result A :=
  match o with
  | Some a => Ok a
  | None => Undefined
  end.

(** The range [buf + off, buf + off + len) of a buffer. *)
Definition window {A : Type} (buf : list A) (off len : nat) : option (list A) :=
  if off + len <=? length buf then Some (take len (drop off buf)) else None.

(** Logits with a single largest entry, at position [k]. *)
Definition one_hot (n k : nat) : list Q :=
  (fun i => if i =? k then 1%Q else 0%Q) <$> seq 0 n.

(** A tokenizer with one id per byte. *)
Definition byte_ids (prompt : list byte) : list Z :=
  (fun b => Z.of_N (Byte.to_N b)) <$> prompt.

(** ** The speculative-decoding sample *)

Module Speculative.

Definition BATCH_SIZE : nat := 1.

(** *** Tensors of token ids *)

(** An [ov::Tensor] of [int64_t]: its shape and the memory it points to. *)
Record Tensor := {
  shape : list nat;
  data : list Z
}.

(** [shape.back()] *)
Definition back (shape : list nat) : nat := default 0 (last shape).

Definition wrap32 (z : Z) : Z := ((z + 2 ^ 31) mod 2 ^ 32 - 2 ^ 31)%Z.

(** [i << n] for an [int] [i]: the shifted integer, wrapped to 32 bits.
    (C++ leaves counts of 32 and more undefined; at [i = 0] every count
    gives 0 here.) *)
Definition shl_int (i : Z) (n : nat) : Z := wrap32 (Z.shiftl i (Z.of_nat n)).

(** The loop of [convert_to_vector]: its condition is
    [i << tensor.get_shape().back()]. *)
Fixpoint convert_loop (fuel : nat) (tensor : Tensor) (i : Z) (res_vector : list Z)
  : result (list Z) :=
  if (shl_int i (back (shape tensor)) =? 0)%Z then Ok res_vector
  else match fuel with
       | 0 => OutOfFuel
       | S fuel' =>
           x ← of_option (data tensor !! Z.to_nat i);
           convert_loop fuel' tensor (wrap32 (i + 1)) (res_vector ++ [x])
       end.

Definition convert_to_vector (fuel : nat) (tensor : Tensor) : result (list Z) :=
  convert_loop fuel tensor 0 [].

(** The tensor returned points to the memory of [vec]. *)
Definition append_element (fuel : nat) (tensor_val : Tensor) (element : Z)
  : result Tensor :=
  vec ← convert_to_vector fuel tensor_val;
  let vec := vec ++ [element] in
  Ok {| shape := [BATCH_SIZE; back (shape tensor_val)]; data := vec |}.

(** *** Language models *)

(** A compiled model with explicit key/value inputs and outputs: one
    inference maps [input_ids], [attention_mask], [position_ids] and the
    past key/value pairs of the layers to the logits, a flat buffer of
    [vocab_size] floats per input position, and the present pairs. *)
Record LanguageModel := {
  vocab_size : nat;
  kv_pair : Type;
  empty_pair : nat -> nat -> kv_pair;
  forward : list Z -> list Z -> list Z -> list kv_pair -> list Q * list kv_pair
}.

(** The tensors of an [ov::InferRequest] on such a model. *)
Record InferRequest (m : LanguageModel) := {
  input_ids : list Z;
  attention_mask : list Z;
  position_ids : list Z;
  past_key_values : list (kv_pair m);
  logits : list Q;
  present : list (kv_pair m)
}.

Arguments input_ids {m} _.
Arguments attention_mask {m} _.
Arguments position_ids {m} _.
Arguments past_key_values {m} _.
Arguments logits {m} _.
Arguments present {m} _.

Section Model.

Context {m : LanguageModel}.

Definition infer (r : InferRequest m) : InferRequest m :=
  let '(logits, present) :=
    forward m (input_ids r) (attention_mask r) (position_ids r) (past_key_values r) in
  {| input_ids := input_ids r; attention_mask := attention_mask r;
     position_ids := position_ids r; past_key_values := past_key_values r;
     logits := logits; present := present |}.

(** [past_key_values.i] := [present.i] for [i < size] *)
Definition set_key_values (r : InferRequest m) (size : nat) : InferRequest m :=
  {| input_ids := input_ids r; attention_mask := attention_mask r;
     position_ids := position_ids r;
     past_key_values := take size (present r) ++ drop size (past_key_values r);
     logits := logits r; present := present r |}.

(** [kv_length] pairs of tensors of shape [{1, size_1, 0, size_2}] *)
Definition init_key_values (r : InferRequest m) (kv_length size_1 size_2 : nat)
  : InferRequest m :=
  {| input_ids := input_ids r; attention_mask := attention_mask r;
     position_ids := position_ids r;
     past_key_values := replicate kv_length (empty_pair m size_1 size_2)
                        ++ drop kv_length (past_key_values r);
     logits := logits r; present := present r |}.

(** The first inference: the whole prompt, positions [0, 1, ...]. *)
Definition prefill (ids mask : list Z) (kv_length size_1 size_2 : nat)
  : InferRequest m :=
  infer (init_key_values
           {| input_ids := ids; attention_mask := mask;
              position_ids := Z.of_nat <$> seq 0 (length ids);
              past_key_values := []; logits := []; present := [] |}
           kv_length size_1 size_2).

(** One pass of the loop over a request: a single input id, the attention
    mask one longer and all ones, the position
    [attention_mask.get_size() - 2], the present pairs copied to the past
    ones, one inference. *)
Definition decode_step (r : InferRequest m) (token : Z) (kv_size : nat)
  : InferRequest m :=
  let mask_len := S (length (attention_mask r)) in
  infer (set_key_values
           {| input_ids := [token];
              attention_mask := replicate mask_len 1%Z;
              position_ids := [(Z.of_nat mask_len - 2)%Z];
              past_key_values := past_key_values r;
              logits := logits r; present := present r |}
           kv_size).

End Model.

(** *** [main] *)

Definition SPECIAL_EOS_TOKEN : Z := 2.
Definition max_iter : Z := 50.

Definition tiny_llama_kv_size : nat := 22.
Definition tiny_llama_size_1 : nat := 4.
Definition tiny_llama_size_2 : nat := 64.
Definition llama_kv_size : nat := 22.
Definition llama_size_1 : nat := 4.
Definition llama_size_2 : nat := 64.

(** What one pass of the loop does to the outside: the id written to the
    draft request, the id written to the target request, the token given to
    the streamer. *)
Record iteration := {
  draft_input : Z;
  target_input : Z;
  put_token : Z
}.

Section Main.

Variables draft target : LanguageModel.

(** The tokenizer request: [input_ids] and [attention_mask] of a prompt. *)
Variable tokenize : list byte -> list Z * list Z.
Variable detokenize : list Z -> list byte.

Record loop_state := {
  lm : InferRequest draft;
  lm_target : InferRequest target;
  out_token : Z;
  target_out_token : Z;
  iter : Z;
  text_streamer : TextStreamer.t;
  cout : list byte
}.

(** [std::max_element(logits, logits + vocab_size) - logits] on the logits
    tensor of a request, from offset [off]. *)
Definition arg_max_token (logits : list Q) (off vocab : nat) : result Z :=
  w ← of_option (window logits off vocab);
  Ok (Z.of_nat (Sampling.max_element w)).

(** The body of the [while] loop. *)
Definition body (st : loop_state) : result (loop_state * iteration) :=
  let iter := (iter st + 1)%Z in
  let lm := decode_step (lm st) (out_token st) tiny_llama_kv_size in
  let lm_target :=
    decode_step (lm_target st) (target_out_token st) llama_kv_size in
  '(streamer, out) ←
    of_option (TextStreamer.put detokenize (text_streamer st) (out_token st));
  arg_max ← arg_max_token (logits lm) 0 (vocab_size draft);
  Ok ({| lm := lm; lm_target := lm_target;
         out_token := arg_max; target_out_token := target_out_token st;
         iter := iter; text_streamer := streamer; cout := cout st ++ out |},
      {| draft_input := out_token st;
         target_input := target_out_token st;
         put_token := out_token st |}).

(** [while (out_token != SPECIAL_EOS_TOKEN && iter < max_iter)] *)
Fixpoint decode_loop (fuel : nat) (st : loop_state)
  : result (loop_state * list iteration) :=
  if negb (out_token st =? SPECIAL_EOS_TOKEN)%Z && (iter st <? max_iter)%Z then
    match fuel with
    | 0 => OutOfFuel
    | S fuel' =>
        '(st, it) ← body st;
        '(st, its) ← decode_loop fuel' st;
        Ok (st, it :: its)
    end
  else Ok (st, []).

(** The state in which the loop is entered. *)
Definition start (prompt : list byte) : result loop_state :=
  let '(ids, mask) := tokenize prompt in
  let lm := prefill ids mask tiny_llama_kv_size tiny_llama_size_1 tiny_llama_size_2 in
  let lm_target :=
    prefill ids (replicate (length ids) 1%Z)
            llama_kv_size llama_size_1 llama_size_2 in
  let vocab := vocab_size draft in
  last_pos ← of_option (if length ids is S n then Some n else None);
  arg_max_token_ ← arg_max_token (logits lm) (last_pos * vocab) vocab;
  target_arg_max_token ← arg_max_token (logits lm_target) (last_pos * vocab) vocab;
  Ok {| lm := lm; lm_target := lm_target;
        out_token := arg_max_token_; target_out_token := target_arg_max_token;
        iter := 0; text_streamer := TextStreamer.init; cout := [] |}.

(** [main] from the compiled models on: the passes of the loop and the
    text on standard output. *)
Definition main (fuel : nat) (prompt : list byte)
  : result (list iteration * list byte) :=
  st ← start prompt;
  '(st, its) ← decode_loop fuel st;
  '(_, out) ← of_option (TextStreamer.end_ detokenize (text_streamer st));
  Ok (its, cout st ++ out).


End Main.

(** *** Models to run [main] on *)

(** A model whose logits at each position single out [next id]. *)
Definition chain_model (vocab : nat) (next : Z -> Z) : LanguageModel := {|
  vocab_size := vocab;
  kv_pair := unit;
  empty_pair := fun _ _ => tt;
  forward := fun ids mask pos past =>
    (concat ((fun id => one_hot vocab (Z.to_nat (next id))) <$> ids), past)
|}.

Definition draft_example : LanguageModel :=
  chain_model 5 (fun id => (id * 3) mod 5)%Z.

Definition target_example : LanguageModel :=
  chain_model 5 (fun id => (id + 1) mod 5)%Z.

Definition byte_tokenize (prompt : list byte) : list Z * list Z :=
  (byte_ids prompt, replicate (length prompt) 1%Z).

End Speculative.

(** ** The Qwen backend: [api_interface] *)

Module Backend.

Definition BATCH_SIZE : nat := 1.

Record PerformanceStatistic := {
  llm_load_duration : Q;
  llm_unload_duration : Q;
  llm_cancel_duration : Q;
  tokenizer_load_duration : Q;
  llm_first_infer_duration : Q;
  llm_prompt_evaluation_speed : Q;
  llm_generate_next_token_duration : Q;
  llm_average_token_per_second : Q;
  input_token_num : Z;
  generated_token_num : Z
}.

(** [memset(&_perf_statistic, 0, sizeof(PerformanceStatistic))] *)
Definition zeroed : PerformanceStatistic := {|
  llm_load_duration := 0; llm_unload_duration := 0; llm_cancel_duration := 0;
  tokenizer_load_duration := 0;
  llm_first_infer_duration := 0; llm_prompt_evaluation_speed := 0;
  llm_generate_next_token_duration := 0; llm_average_token_per_second := 0;
  input_token_num := 0; generated_token_num := 0
|}.

(** The statistics a generation does not write. *)
Definition same_load_statistics (s s' : PerformanceStatistic) : Prop :=
  llm_load_duration s' = llm_load_duration s
  /\ llm_unload_duration s' = llm_unload_duration s
  /\ llm_cancel_duration s' = llm_cancel_duration s
  /\ tokenizer_load_duration s' = tokenizer_load_duration s.

Inductive status := init | loaded | unloaded | inference | error.

(** The two ids of [qwen::QwenConfig] the loops compare with. *)
Record QwenConfig := {
  eos_token_id : Z;
  im_end_id : Z
}.

(** The ids that end a generation, and a sequence of produced tokens in
    which such an id can only be the last. *)
Definition is_end (config : QwenConfig) (token : Z) : Prop :=
  token = eos_token_id config \/ token = im_end_id config.

Definition ends_at_eos (config : QwenConfig) (produced : list Z) : Prop :=
  forall i token,
    produced !! i = Some token -> is_end config token -> S i = length produced.

(** A compiled stateful model: the key/value cache is a variable state
    kept inside the infer request, [state.reset()] gives [reset_state]. *)
Record StatefulModel := {
  vocab_size : nat;
  variable_state : Type;
  reset_state : variable_state;
  forward : list Z -> list Z -> list Z -> list Z -> variable_state
            -> list Q * variable_state
}.

Record InferRequest (m : StatefulModel) := {
  input_ids : list Z;
  attention_mask : list Z;
  position_ids : list Z;
  beam_idx : list Z;
  logits : list Q;
  state : variable_state m
}.

Arguments input_ids {m} _.
Arguments attention_mask {m} _.
Arguments position_ids {m} _.
Arguments beam_idx {m} _.
Arguments logits {m} _.
Arguments state {m} _.

(** [(size_t) n] for an [int32_t] [n] *)
Definition to_size_t (n : Z) : Z := (n mod 2 ^ 64)%Z.

(** One invocation of the callback: what [*new_token_id] and
    [*_stop_generation] hold when it is entered. *)
Record callback_call := {
  cb_token : Z;
  cb_stop : bool
}.

Section Api.

Context `{StdRuntime}.

Variable m : StatefulModel.

(** The tokenizer: [encode (prompt, n_ctx)] and [decode]. *)
Variable encode : list byte -> Z -> list Z.
Variable decode : list Z -> list byte.

(** [get_duration_ms_until_now]: the [k]-th duration measured. *)
Variable duration_ms : nat -> Q.

(** The callback, a function pointer with a state of its own: from the
    values behind its two pointers to the values it leaves there. *)
Variable cb : Type.
Variable api_callback : cb -> Z -> bool -> cb * Z * bool.

Record api_interface := {
  _infer_request : option (InferRequest m);
  _perf_statistic : PerformanceStatistic;
  _tokenizer_config : QwenConfig;
  _vocab_size : nat;
  _api_status : status;
  _new_token_id : Z;
  _stop_generation : bool;
  (* the [thread_local] generator of [get_out_token_id] *)
  rng : option mt19937;
  (* how many durations have been measured *)
  clock : nat
}.

Definition with_request (a : api_interface) (r : option (InferRequest m)) :=
  {| _infer_request := r; _perf_statistic := _perf_statistic a;
     _tokenizer_config := _tokenizer_config a; _vocab_size := _vocab_size a;
     _api_status := _api_status a; _new_token_id := _new_token_id a;
     _stop_generation := _stop_generation a; rng := rng a; clock := clock a |}.

Definition with_perf (a : api_interface) (s : PerformanceStatistic) :=
  {| _infer_request := _infer_request a; _perf_statistic := s;
     _tokenizer_config := _tokenizer_config a; _vocab_size := _vocab_size a;
     _api_status := _api_status a; _new_token_id := _new_token_id a;
     _stop_generation := _stop_generation a; rng := rng a; clock := clock a |}.

Definition with_status (a : api_interface) (s : status) :=
  {| _infer_request := _infer_request a; _perf_statistic := _perf_statistic a;
     _tokenizer_config := _tokenizer_config a; _vocab_size := _vocab_size a;
     _api_status := s; _new_token_id := _new_token_id a;
     _stop_generation := _stop_generation a; rng := rng a; clock := clock a |}.

Definition with_token (a : api_interface) (token : Z) (stop : bool) :=
  {| _infer_request := _infer_request a; _perf_statistic := _perf_statistic a;
     _tokenizer_config := _tokenizer_config a; _vocab_size := _vocab_size a;
     _api_status := _api_status a; _new_token_id := token;
     _stop_generation := stop; rng := rng a; clock := clock a |}.

Definition with_rng (a : api_interface) (g : option mt19937) :=
  {| _infer_request := _infer_request a; _perf_statistic := _perf_statistic a;
     _tokenizer_config := _tokenizer_config a; _vocab_size := _vocab_size a;
     _api_status := _api_status a; _new_token_id := _new_token_id a;
     _stop_generation := _stop_generation a; rng := g; clock := clock a |}.

(** What the inference steps leave alone in the object. *)
Definition same_control (a a' : api_interface) : Prop :=
  _stop_generation a' = _stop_generation a
  /\ _new_token_id a' = _new_token_id a
  /\ _tokenizer_config a' = _tokenizer_config a
  /\ same_load_statistics (_perf_statistic a) (_perf_statistic a')
  /\ input_token_num (_perf_statistic a') = input_token_num (_perf_statistic a).

(** A duration is measured: the value and the advanced clock. *)
Definition measured (a : api_interface) : Q * api_interface :=
  (duration_ms (clock a),
   {| _infer_request := _infer_request a; _perf_statistic := _perf_statistic a;
      _tokenizer_config := _tokenizer_config a; _vocab_size := _vocab_size a;
      _api_status := _api_status a; _new_token_id := _new_token_id a;
      _stop_generation := _stop_generation a; rng := rng a;
      clock := S (clock a) |}).

(** [start_async(); wait();] *)
Definition start_async_wait (r : InferRequest m) : InferRequest m :=
  let '(logits, state) :=
    forward m (input_ids r) (attention_mask r) (position_ids r) (beam_idx r)
            (state r) in
  {| input_ids := input_ids r; attention_mask := attention_mask r;
     position_ids := position_ids r; beam_idx := beam_idx r;
     logits := logits; state := state |}.

(** [for (auto &&state : query_state()) state.reset();] *)
Definition reset_states (r : InferRequest m) : InferRequest m :=
  {| input_ids := input_ids r; attention_mask := attention_mask r;
     position_ids := position_ids r; beam_idx := beam_idx r;
     logits := logits r; state := reset_state m |}.

(** The sampler on the logits tensor of the request: it works in place on
    the first [_vocab_size] floats. *)
Definition sample (a : api_interface) (r : InferRequest m)
    (history_ids : list Z) (p : params) : result (api_interface * Z) :=
  w ← of_option (window (logits r) 0 (_vocab_size a));
  '(token, w, g) ← of_option (Sampling.get_out_token_id (rng a) history_ids w p);
  let r := {| input_ids := input_ids r; attention_mask := attention_mask r;
              position_ids := position_ids r; beam_idx := beam_idx r;
              logits := w ++ drop (_vocab_size a) (logits r);
              state := state r |} in
  Ok (with_rng (with_request a (Some r)) g, token).

Definition generate_first_token (a : api_interface) (input_ids : list Z) (p : params)
  : result (api_interface * Z) :=
  r ← of_option (_infer_request a);
  let n := length input_ids in
  let r := reset_states
             {| input_ids := input_ids;
                attention_mask := replicate n 1%Z;
                position_ids := Z.of_nat <$> seq 0 n;
                beam_idx := [0%Z];
                logits := logits r; state := state r |} in
  let r := start_async_wait r in
  let '(first_infer_duration_ms, a) := measured a in
  let s := _perf_statistic a in
  let s := {| llm_load_duration := llm_load_duration s;
              llm_unload_duration := llm_unload_duration s;
              llm_cancel_duration := llm_cancel_duration s;
              tokenizer_load_duration := tokenizer_load_duration s;
              llm_first_infer_duration := first_infer_duration_ms;
              llm_prompt_evaluation_speed :=
                (inject_Z (input_token_num s) / first_infer_duration_ms * 1000)%Q;
              llm_generate_next_token_duration := llm_generate_next_token_duration s;
              llm_average_token_per_second := llm_average_token_per_second s;
              input_token_num := input_token_num s;
              generated_token_num := generated_token_num s |} in
  sample (with_perf a s) r input_ids p.

(** The caller has given [input_ids] and [position_ids] the shape
    [{BATCH_SIZE, 1}]. *)
Definition generate_next_token (a : api_interface) (input_token : Z)
    (history_ids : list Z) (p : params) : result (api_interface * Z) :=
  r ← of_option (_infer_request a);
  let mask_len := S (length (attention_mask r)) in
  let r := {| input_ids := [input_token];
              attention_mask := replicate mask_len 1%Z;
              position_ids := [(Z.of_nat mask_len - 2)%Z];
              beam_idx := beam_idx r;
              logits := logits r; state := state r |} in
  let r := start_async_wait r in
  let '(generate_next_token_duration_ms, a) := measured a in
  let s := _perf_statistic a in
  let s := {| llm_load_duration := llm_load_duration s;
              llm_unload_duration := llm_unload_duration s;
              llm_cancel_duration := llm_cancel_duration s;
              tokenizer_load_duration := tokenizer_load_duration s;
              llm_first_infer_duration := llm_first_infer_duration s;
              llm_prompt_evaluation_speed := llm_prompt_evaluation_speed s;
              llm_generate_next_token_duration :=
                (llm_generate_next_token_duration s
                 + generate_next_token_duration_ms)%Q;
              llm_average_token_per_second := llm_average_token_per_second s;
              input_token_num := input_token_num s;
              generated_token_num := generated_token_num s |} in
  sample (with_perf a s) r history_ids p.

(** [api_callback(&_new_token_id, &_stop_generation)] *)
Definition invoke (a : api_interface) (c : cb)
  : api_interface * cb * callback_call :=
  let '(c', token, stop) := api_callback c (_new_token_id a) (_stop_generation a) in
  (with_token a token stop, c',
   {| cb_token := _new_token_id a; cb_stop := _stop_generation a |}).

(** The test of both [while] loops on the last token and the count. *)
Definition proceed (a : api_interface) (output_token : Z) (count : nat) (p : params)
  : bool :=
  negb (output_token =? eos_token_id (_tokenizer_config a))%Z
  && negb (output_token =? im_end_id (_tokenizer_config a))%Z
  && (to_size_t (Z.of_nat count) <? to_size_t (n_predict p))%Z.

(** The [while] loop of the streamed [api_Generate]; the result carries
    the history and the invocations of the callback, in order. *)
Fixpoint stream_loop (fuel : nat) (a : api_interface) (c : cb)
    (output_token : Z) (history_ids : list Z) (n_input : nat) (p : params)
  : result (api_interface * cb * list Z * list callback_call) :=
  if proceed a output_token (length history_ids - n_input) p then
    match fuel with
    | 0 => OutOfFuel
    | S fuel' =>
        if _stop_generation a then
          let '(a, c, call) := invoke a c in
          Ok (a, c, history_ids, [call])
        else
          '(a, output_token) ← generate_next_token a output_token history_ids p;
          let '(a, c, call) :=
            invoke (with_token a output_token (_stop_generation a)) c in
          '(a, c, history_ids, calls) ←
            stream_loop fuel' a c output_token (history_ids ++ [output_token])
                        n_input p;
          Ok (a, c, history_ids, call :: calls)
    end
  else Ok (a, c, history_ids, []).

(** The statistics written when a generation is over. *)
Definition finish (a : api_interface) (generated : Z) : api_interface :=
  let s := _perf_statistic a in
  with_perf a
    {| llm_load_duration := llm_load_duration s;
       llm_unload_duration := llm_unload_duration s;
       llm_cancel_duration := llm_cancel_duration s;
       tokenizer_load_duration := tokenizer_load_duration s;
       llm_first_infer_duration := llm_first_infer_duration s;
       llm_prompt_evaluation_speed := llm_prompt_evaluation_speed s;
       llm_generate_next_token_duration := llm_generate_next_token_duration s;
       llm_average_token_per_second :=
         (inject_Z generated / llm_generate_next_token_duration s * 1000)%Q;
       input_token_num := input_token_num s;
       generated_token_num := generated |}.

Definition with_input_token_num (a : api_interface) (n : Z) : api_interface :=
  let s := _perf_statistic a in
  with_perf a
    {| llm_load_duration := llm_load_duration s;
       llm_unload_duration := llm_unload_duration s;
       llm_cancel_duration := llm_cancel_duration s;
       tokenizer_load_duration := tokenizer_load_duration s;
       llm_first_infer_duration := llm_first_infer_duration s;
       llm_prompt_evaluation_speed := llm_prompt_evaluation_speed s;
       llm_generate_next_token_duration := llm_generate_next_token_duration s;
       llm_average_token_per_second := llm_average_token_per_second s;
       input_token_num := n;
       generated_token_num := generated_token_num s |}.

(** The overload of [api_Generate] with a callback.  The result is the
    object, the state of the callback, the history and the invocations of
    the callback. *)
Definition api_Generate_stream (fuel : nat) (a : api_interface) (c : cb)
    (prompt : list byte) (p : params)
  : result (api_interface * cb * list Z * list callback_call) :=
  let a := with_status a inference in
  let input_ids := encode prompt (n_ctx p) in
  let history_ids := input_ids in
  let a := with_input_token_num a (Z.of_nat (length input_ids)) in
  '(a, output_token) ← generate_first_token a input_ids p;
  let '(a, c, call) := invoke (with_token a output_token (_stop_generation a)) c in
  let history_ids := history_ids ++ [output_token] in
  '(a, c, history_ids, calls) ←
    stream_loop fuel a c output_token history_ids (length input_ids) p;
  let a := finish a (Z.of_nat (length history_ids - length input_ids)) in
  Ok (with_status a loaded, c, history_ids, call :: calls).

(** The [while] loop of the overload that returns the text. *)
Fixpoint text_loop (fuel : nat) (a : api_interface)
    (output_token : Z) (output_ids history_ids : list Z) (p : params)
  : result (api_interface * list Z) :=
  if proceed a output_token (length output_ids) p && negb (_stop_generation a) then
    match fuel with
    | 0 => OutOfFuel
    | S fuel' =>
        '(a, output_token) ← generate_next_token a output_token history_ids p;
        text_loop fuel' a output_token (output_ids ++ [output_token])
                  (history_ids ++ [output_token]) p
    end
  else Ok (a, output_ids).

(** The overload of [api_Generate] that returns the text; the result also
    carries [output_ids]. *)
Definition api_Generate (fuel : nat) (a : api_interface)
    (prompt : list byte) (p : params)
  : result (api_interface * list Z * list byte) :=
  let a := with_status a inference in
  let input_ids := encode prompt (n_ctx p) in
  let a := with_input_token_num a (Z.of_nat (length input_ids)) in
  '(a, output_token) ← generate_first_token a input_ids p;
  '(a, output_ids) ←
    text_loop fuel a output_token [output_token] (input_ids ++ [output_token]) p;
  let a := finish a (Z.of_nat (length output_ids) - 1) in
  Ok (with_status a loaded, output_ids, decode output_ids).

Definition api_Reset (a : api_interface) : result api_interface :=
  r ← of_option (_infer_request a);
  Ok {| _infer_request := Some (reset_states r);
        _perf_statistic := zeroed;
        _tokenizer_config := _tokenizer_config a;
        _vocab_size := _vocab_size a;
        _api_status := loaded;
        _new_token_id := im_end_id (_tokenizer_config a);
        _stop_generation := false;
        rng := rng a; clock := clock a |}.

Definition api_unloadmodel (a : api_interface) : api_interface :=
  let a := with_request a None in
  let '(llm_unload_duration_, a) := measured a in
  let s := _perf_statistic a in
  with_status
    (with_perf a
       {| llm_load_duration := llm_load_duration s;
          llm_unload_duration := llm_unload_duration_;
          llm_cancel_duration := llm_cancel_duration s;
          tokenizer_load_duration := tokenizer_load_duration s;
          llm_first_infer_duration := llm_first_infer_duration s;
          llm_prompt_evaluation_speed := llm_prompt_evaluation_speed s;
          llm_generate_next_token_duration := llm_generate_next_token_duration s;
          llm_average_token_per_second := llm_average_token_per_second s;
          input_token_num := input_token_num s;
          generated_token_num := generated_token_num s |})
    unloaded.

(** An object on which [api_loadmodel] has run: a fresh request, the
    vocabulary size read from the shape of its logits. *)
Definition loaded_object (config : QwenConfig) (load_ms : Q) : api_interface :=
  {| _infer_request :=
       Some {| input_ids := []; attention_mask := []; position_ids := [];
               beam_idx := []; logits := []; state := reset_state m |};
     _perf_statistic :=
       {| llm_load_duration := load_ms; llm_unload_duration := 0;
          llm_cancel_duration := 0; tokenizer_load_duration := 0;
          llm_first_infer_duration := 0; llm_prompt_evaluation_speed := 0;
          llm_generate_next_token_duration := 0;
          llm_average_token_per_second := 0;
          input_token_num := 0; generated_token_num := 0 |};
     _tokenizer_config := config;
     _vocab_size := vocab_size m;
     _api_status := loaded;
     _new_token_id := im_end_id config;
     _stop_generation := false;
     rng := None; clock := 0 |}.

(** The callback fed the produced tokens one after the other: each
    invocation gets the token and the stop flag the previous one left.  The
    result is the state of the callback, the id and the flag it left behind
    its two pointers, and the invocations.  [token] and [stop] are what
    the two fields hold before the first invocation. *)
Record replayed := {
  end_state : cb;
  left_token : Z;
  left_stop : bool;
  token_calls : list callback_call
}.

Fixpoint replay_callback (c : cb) (token : Z) (stop : bool) (produced : list Z)
  : replayed :=
  match produced with
  | [] => {| end_state := c; left_token := token; left_stop := stop;
             token_calls := [] |}
  | t :: rest =>
      let '(c', token', stop') := api_callback c t stop in
      let r := replay_callback c' token' stop' rest in
      {| end_state := end_state r; left_token := left_token r;
         left_stop := left_stop r;
         token_calls := {| cb_token := t; cb_stop := stop |} :: token_calls r |}
  end.

End Api.

(** *** An object to run the backend on *)

(** A model whose logits single out the successor of the last input id;
    its state counts the ids it has consumed. *)
Definition successor_model : StatefulModel := {|
  vocab_size := 5;
  variable_state := nat;
  reset_state := 0;
  forward := fun ids mask pos beam consumed =>
    (one_hot 5 (Z.to_nat ((default 0 (last ids) + 1) mod 5)%Z),
     consumed + length ids)
|}.

Definition example_config : QwenConfig := {| eos_token_id := 4; im_end_id := 4 |}.

Definition byte_encode (prompt : list byte) (n_ctx : Z) : list Z := byte_ids prompt.

Definition example_durations (k : nat) : Q := inject_Z (Z.of_nat (S k)).

(** The callback of the header's comment, which prints the id unless the
    stop flag is set; this one also sets the flag when it is given [t]. *)
Definition stop_at (t : Z) (printed : list Z) (token : Z) (stop : bool)
  : list Z * Z * bool :=
  (if stop then printed else printed ++ [token], token, stop || (token =? t)%Z).

Definition greedy_upto (n : Z) : params := {|
  n_ctx := 2048; n_predict := n; do_sample := false;
  top_k := 40; top_p := (9 # 10)%Q; temperature := (1 # 5)%Q;
  repeat_penalty := 1%Q; repeat_last_n := 32; seed := -1
|}.

Definition example_object `{StdRuntime} : api_interface successor_model :=
  loaded_object successor_model example_config (7 # 2)%Q.

End Backend.

(** ** Further definitions *)

Module SpeculativeSteps.

Import Speculative.

(** The tensors of a request [r'] that has made [k >= 1] decode steps
    since [r], the last one on [token]. *)
Definition stepped {m : LanguageModel} (r r' : InferRequest m) (k : nat) (token : Z)
  : Prop :=
  input_ids r' = [token]
  /\ attention_mask r' = replicate (length (attention_mask r) + k) 1%Z
  /\ position_ids r' = [(Z.of_nat (length (attention_mask r) + k) - 2)%Z].

End SpeculativeSteps.

(** * Properties *)

(** ** Outcomes *)

Lemma bind_Ok {A B : Type} (m : result A) (f : A -> result B) (b : B) :
  m ≫= f = Ok b -> exists a, m = Ok a /\ f a = Ok b.
Proof. destruct m as [a| |]; simpl; [by exists a | done | done]. Qed.

Lemma of_option_Ok {A : Type} (o : option A) (a : A) :
  of_option o = Ok a -> o = Some a.
Proof. destruct o; simpl; congruence. Qed.

(** ** The streamer *)

Section StreamerFacts.

Import TextStreamer.

Variable detokenize : list Z -> list byte.

#[local] Abbreviation fits_extensions := (TextStreamer.fits_extensions detokenize).

Lemma ends_with_newline_suffix (text : list byte) :
  ends_with_newline text = true <-> [newline] `suffix_of` text.
Proof.
  unfold ends_with_newline. split.
  - destruct (last text) as [c|] eqn:Hl; [|done].
    intros Hc. apply byte_dec_bl in Hc. subst c.
    apply last_Some in Hl as [l' ->]. by exists l'.
  - intros [k ->]. rewrite last_snoc. by apply byte_dec_lb.
Qed.

Lemma ends_with_marker_suffix (text : list byte) :
  ends_with_marker text = true <-> replacement_marker `suffix_of` text.
Proof.
  unfold ends_with_marker. rewrite andb_true_iff, bool_decide_eq_true, Nat.leb_le.
  split.
  - intros [_ Hd]. exists (take (length text - 3) text).
    rewrite <- Hd. by rewrite take_drop.
  - intros [k ->]. rewrite length_app. simpl. split; [lia|].
    replace (length k + 3 - 3) with (length k) by lia.
    by rewrite drop_app_length.
Qed.



Lemma string_view_in_range (text : list byte) (n : nat) :
  n <= length text -> string_view text n = Some (drop n text).
Proof.
  intros H. unfold string_view. by rewrite (proj2 (Nat.leb_le _ _) H).
Qed.


Lemma fits_extensions_invariant (s : t) :
  fits_extensions s -> invariant detokenize s.
Proof. intros H. unfold invariant. by rewrite <- (app_nil_r (token_cache s)). Qed.

Lemma fits_extensions_init : fits_extensions init.
Proof. intros ext. simpl. lia. Qed.

Lemma ends_with_newline_not (text : list byte) :
  ends_with_newline text = false -> ¬ [newline] `suffix_of` text.
Proof. intros E H. apply ends_with_newline_suffix in H. congruence. Qed.

Lemma ends_with_marker_not (text : list byte) :
  ends_with_marker text = false -> ¬ replacement_marker `suffix_of` text.
Proof. intros E H. apply ends_with_marker_suffix in H. congruence. Qed.

Lemma put_fits_extensions (s : t) (token : Z) :
  length_stable detokenize -> fits_extensions s ->
  exists s' out, put detokenize s token = Some (s', out) /\ fits_extensions s'.
Proof.
  intros Hst Hs. unfold put.
  pose proof (Hs [token]) as Hle.
  destruct (ends_with_newline _) eqn:Enl.
  - rewrite string_view_in_range by done. simpl.
    eexists _, _. split; [done|]. apply fits_extensions_init.
  - destruct (ends_with_marker _) eqn:Em.
    + eexists _, _. split; [done|]. intros ext. simpl.
      rewrite <- app_assoc. apply Hs.
    + rewrite string_view_in_range by done. simpl.
      eexists _, _. split; [done|]. intros ext. simpl.
      apply Hst; [by apply ends_with_newline_not | by apply ends_with_marker_not].
Qed.

Lemma end_fits_extensions (s : t) :
  fits_extensions s ->
  exists out, end_ detokenize s = Some (init, out).
Proof.
  intros Hs. unfold end_.
  rewrite string_view_in_range by (by apply fits_extensions_invariant).
  simpl. by eexists.
Qed.

Lemma run_fits_extensions (cs : list call) :
  length_stable detokenize ->
  forall s, fits_extensions s ->
  exists s' out, run detokenize s cs = Some (s', out) /\ fits_extensions s'.
Proof.
  intros Hst. induction cs as [|c cs IH]; intros s Hs.
  - by exists s, [].
  - assert (exists s1 out1, step detokenize s c = Some (s1, out1)
                            /\ fits_extensions s1) as (s1 & out1 & E1 & H1).
    { destruct c as [token|]; simpl.
      - by apply put_fits_extensions.
      - destruct (end_fits_extensions s Hs) as [out E].
        exists init, out. split; [done | apply fits_extensions_init]. }
    destruct (IH s1 H1) as (s2 & out2 & E2 & H2).
    exists s2, (out1 ++ out2). simpl. rewrite E1. simpl. rewrite E2. by simpl.
Qed.

Lemma flush_clears (s : t) (c : call) (s' : t) (out : list byte) :
  step detokenize s c = Some (s', out) -> flushes detokenize s c -> s' = init.
Proof.
  destruct c as [token|]; simpl.
  - intros E Hnl. unfold put in E.
    apply ends_with_newline_suffix in Hnl. rewrite Hnl in E.
    destruct (string_view _ _); by simplify_eq/=.
  - intros E _. unfold end_ in E.
    destruct (string_view _ _); by simplify_eq/=.
Qed.

(** C9 (amended).  If the detokenizer never makes a printed text shorter
    when the cache grows, then every sequence of [put]/[end] calls from the
    initial state runs without reading outside the text and ends in a state
    with [print_len <= length (detokenize token_cache)].  Whatever the
    detokenizer, a [put] whose text ends in a newline and every [end] leave
    the cache empty and [print_len] 0. *)
Theorem invariant_after_every_call :
  (length_stable detokenize ->
   forall cs : list call,
     exists s out, run detokenize init cs = Some (s, out)
                   /\ invariant detokenize s) /\
  (forall s c s' out,
     step detokenize s c = Some (s', out) -> flushes detokenize s c ->
     token_cache s' = [] /\ print_len s' = 0).
Proof.
  split.
  - intros Hst cs.
    destruct (run_fits_extensions cs Hst init fits_extensions_init)
      as (s & out & E & H).
    exists s, out. split; [done | by apply fits_extensions_invariant].
  - intros s c s' out E Hf. by rewrite (flush_clears s c s' out E Hf).
Qed.

Lemma run_cons (s : t) (c : call) (cs : list call) s1 out1 s2 out2 :
  step detokenize s c = Some (s1, out1) ->
  run detokenize s1 cs = Some (s2, out2) ->
  run detokenize s (c :: cs) = Some (s2, out1 ++ out2).
Proof. intros E1 E2. simpl. rewrite E1. simpl. by rewrite E2. Qed.

(** Feeding [tokens] and then calling [end], from a state whose printed
    part [printed] is a prefix of the text of every extension of its cache,
    writes the rest of the text of the whole cache and a newline. *)
Lemma run_completes_text (tokens : list Z) :
  prefix_stable detokenize -> newline_split detokenize ->
  forall (s : t) (printed : list byte),
    length printed = print_len s ->
    (forall ext, printed `prefix_of` detokenize (token_cache s ++ ext)) ->
    exists s' out,
      run detokenize s ((Put <$> tokens) ++ [End]) = Some (s', out)
      /\ printed ++ out = detokenize (token_cache s ++ tokens) ++ [newline].
Proof.
  intros Hpre Hnl. induction tokens as [|token tokens IH]; intros s printed Hlen Hp.
  - simpl. unfold end_. destruct (Hp []) as [rest Hrest].
    rewrite app_nil_r in Hrest |- *.
    rewrite string_view_in_range
      by (rewrite Hrest, length_app; lia).
    simpl. eexists _, _. split; [done|].
    rewrite Hrest at 1. rewrite <- Hlen, drop_app_length.
    by rewrite Hrest, app_nil_r, <- app_assoc.
  - destruct (Hp [token]) as [rest Hrest].
    assert (string_view (detokenize (token_cache s ++ [token])) (print_len s)
            = Some rest) as Hview.
    { rewrite string_view_in_range by (rewrite Hrest, length_app; lia).
      by rewrite Hrest, <- Hlen, drop_app_length. }
    rewrite fmap_cons, <- app_comm_cons.
    rewrite (cons_middle token (token_cache s) tokens), app_assoc.
    destruct (ends_with_newline (detokenize (token_cache s ++ [token]))) eqn:Enl.
    + assert (put detokenize s token = Some (init, rest)) as Eput.
      { unfold put. rewrite Enl, Hview. done. }
      destruct (IH init []) as (s' & out & E & Hout);
        [done | intros ext; apply prefix_nil |].
      exists s', (rest ++ out). split; [by apply (run_cons _ _ _ init) |].
      simpl in Hout. rewrite Hout, app_assoc, <- Hrest.
      rewrite (Hnl (token_cache s ++ [token]) tokens), <- app_assoc; [done|].
      by apply ends_with_newline_suffix.
    + destruct (ends_with_marker (detokenize (token_cache s ++ [token]))) eqn:Em.
      * set (s1 := {| token_cache := token_cache s ++ [token];
                      print_len := print_len s |}).
        assert (put detokenize s token = Some (s1, [])) as Eput.
        { unfold put. by rewrite Enl, Em. }
        destruct (IH s1 printed) as (s' & out & E & Hout); [done | |].
        { intros ext. simpl. rewrite <- app_assoc. apply Hp. }
        exists s', ([] ++ out). split; [by apply (run_cons _ _ _ s1) |].
        done.
      * set (s1 := {| token_cache := token_cache s ++ [token];
                      print_len := length (detokenize (token_cache s ++ [token])) |}).
        assert (put detokenize s token = Some (s1, rest)) as Eput.
        { unfold put. by rewrite Enl, Em, Hview. }
        destruct (IH s1 (detokenize (token_cache s ++ [token])))
          as (s' & out & E & Hout); [done | |].
        { intros ext. simpl.
          apply Hpre; [by apply ends_with_newline_not | by apply ends_with_marker_not]. }
        exists s', (rest ++ out). split; [by apply (run_cons _ _ _ s1) |].
        by rewrite app_assoc, <- Hrest.
Qed.

(** C6 (amended).  If a printed text stays a prefix of the text of every
    longer cache, and decoding may be restarted after a text that ends in a
    newline, then for every token sequence the chunks written by one [put]
    per token followed by [end] are, joined, the text of the whole sequence
    followed by the newline of [end]. *)
Theorem stream_equals_batch (tokens : list Z) :
  prefix_stable detokenize -> newline_split detokenize ->
  stream detokenize tokens = Some (detokenize tokens ++ [newline]).
Proof.
  intros Hpre Hnl.
  destruct (run_completes_text tokens Hpre Hnl init [])
    as (s' & out & E & Hout); [done | intros ext; apply prefix_nil |].
  unfold stream. rewrite E. simpl in *. by rewrite Hout.
Qed.

End StreamerFacts.

(** *** The streamer on concrete detokenizers *)

Section StreamerExamples.

Import TextStreamer.

Lemma concat_detokenize_app (c1 c2 : list Z) :
  concat_detokenize (c1 ++ c2) = concat_detokenize c1 ++ concat_detokenize c2.
Proof. unfold concat_detokenize. by rewrite fmap_app, concat_app. Qed.

Lemma concat_detokenize_prefix_stable : prefix_stable concat_detokenize.
Proof.
  intros cache ext _ _. rewrite concat_detokenize_app. by apply prefix_app_r.
Qed.

Lemma concat_detokenize_length_stable : length_stable concat_detokenize.
Proof.
  intros cache ext _ _. rewrite concat_detokenize_app, length_app. lia.
Qed.

Lemma concat_detokenize_newline_split : newline_split concat_detokenize.
Proof. intros cache rest _. apply concat_detokenize_app. Qed.


(** C9 fails for a detokenizer whose text shrinks: after [put 1] four bytes
    are printed; [put 5] decodes to the marker alone (three bytes) and is
    withheld, which leaves [print_len = 4] above the length of the text. *)
Lemma invariant_broken_by_withheld_token :
  run strict_detokenize init [Put 1; Put 5]
  = Some ({| token_cache := [1%Z; 5%Z]; print_len := 4 |}, [x61; x62; x63; x64])
  /\ strict_detokenize [1%Z; 5%Z] = replacement_marker
  /\ ¬ invariant strict_detokenize {| token_cache := [1%Z; 5%Z]; print_len := 4 |}.
Proof.
  split; [reflexivity | split; [reflexivity |]].
  unfold invariant. simpl. lia.
Qed.

(** A run through all branches on a detokenizer that joins pieces, and
    the flush of a newline-terminated text on one that is not length
    stable. *)
Lemma invariant_after_every_call_witness :
  (exists s out,
     run concat_detokenize init [Put 1; Put 3; Put 2; End; Put 4; Put 5]
     = Some (s, out)
     /\ invariant concat_detokenize s)
  /\ (forall s' out,
        step strict_detokenize {| token_cache := [1%Z]; print_len := 4 |} (Put 2)
        = Some (s', out) ->
        token_cache s' = [] /\ print_len s' = 0).
Proof.
  split.
  - destruct (invariant_after_every_call concat_detokenize) as [Hrun _].
    apply Hrun, concat_detokenize_length_stable.
  - destruct (invariant_after_every_call strict_detokenize) as [_ Hflush].
    intros s' out E. apply (Hflush _ _ _ _ E). by exists [x61; x62; x63; x64; x62].
Defined.

(** C6 fails without any placeholder: the text of token 2 ends in a
    newline, so the cache is cleared, and token 4 decoded on its own loses
    the space it has after the newline in the text of both tokens. *)
Lemma stream_differs_after_newline :
  stream space_stripping_detokenize [2%Z; 4%Z] = Some [x62; x0a; x63; x0a]
  /\ space_stripping_detokenize [2%Z; 4%Z] ++ [newline]
     = [x62; x0a; x20; x63; x0a]
  /\ occurs replacement_marker (space_stripping_detokenize [2%Z; 4%Z]) = false
  /\ stream space_stripping_detokenize [2%Z; 4%Z]
     <> Some (space_stripping_detokenize [2%Z; 4%Z] ++ [newline]).
Proof. repeat split; try reflexivity. discriminate. Qed.

Lemma stream_equals_batch_witness :
  stream concat_detokenize [1%Z; 3%Z; 2%Z; 4%Z; 5%Z]
  = Some (concat_detokenize [1%Z; 3%Z; 2%Z; 4%Z; 5%Z] ++ [newline]).
Proof.
  apply (stream_equals_batch concat_detokenize).
  - apply concat_detokenize_prefix_stable.
  - apply concat_detokenize_newline_split.
Defined.

End StreamerExamples.

(** ** The sampler *)

Section SamplingFacts.

Import Sampling.

Context `{StdRuntime}.

Lemma Qltb_lt (a b : Q) : Qltb a b = true <-> (a < b)%Q.
Proof.
  unfold Qltb. rewrite negb_true_iff. split.
  - intros E. apply Qnot_le_lt. intros Hle.
    apply Qle_bool_iff in Hle. congruence.
  - intros Hlt. destruct (Qle_bool b a) eqn:E; [|done].
    apply Qle_bool_iff in E. by apply Qlt_not_le in Hlt.
Qed.

Lemma Qltb_ge (a b : Q) : Qltb a b = false <-> (b <= a)%Q.
Proof.
  unfold Qltb. rewrite negb_false_iff. apply Qle_bool_iff.
Qed.

(** The scan of [std::max_element], started after a prefix [pre] whose
    first largest element is at [largest]. *)
Lemma max_element_from_first_maximum (l pre : list Q) (largest : nat) (v : Q) :
  pre !! largest = Some v ->
  (forall j x, pre !! j = Some x -> (x <= v)%Q) ->
  (forall j x, j < largest -> pre !! j = Some x -> (x < v)%Q) ->
  first_maximum (pre ++ l) (max_element_from largest v (length pre) l).
Proof.
  revert pre largest v.
  induction l as [|x l IH]; intros pre largest v Hv Hle Hlt.
  - rewrite app_nil_r. simpl. by exists v.
  - simpl. rewrite (cons_middle x pre l), app_assoc.
    replace (S (length pre)) with (length (pre ++ [x]))
      by (rewrite length_app; simpl; lia).
    destruct (Qltb v x) eqn:E.
    + apply Qltb_lt in E. apply IH.
      * by rewrite lookup_app_r, Nat.sub_diag.
      * intros j y Hy. apply lookup_app_Some in Hy as [Hy | [_ Hy]].
        -- apply Qlt_le_weak. eapply Qle_lt_trans; [by eapply Hle | done].
        -- apply list_lookup_singleton_Some in Hy as [_ <-]. apply Qle_refl.
      * intros j y Hj Hy. rewrite lookup_app_l in Hy by done.
        eapply Qle_lt_trans; [by eapply Hle | done].
    + apply Qltb_ge in E. apply IH.
      * rewrite lookup_app_l; [done | by eapply lookup_lt_Some].
      * intros j y Hy. apply lookup_app_Some in Hy as [Hy | [_ Hy]].
        -- by eapply Hle.
        -- by apply list_lookup_singleton_Some in Hy as [_ <-].
      * intros j y Hj Hy. apply lookup_app_Some in Hy as [Hy | [Hge Hy]].
        -- by eapply Hlt.
        -- apply lookup_lt_Some in Hv. lia.
Qed.

Lemma max_element_first_maximum (l : list Q) :
  l <> [] -> first_maximum l (max_element l).
Proof.
  destruct l as [|x l]; [done | intros _]. simpl.
  apply (max_element_from_first_maximum l [x] 0 x).
  - done.
  - intros j y Hy. apply list_lookup_singleton_Some in Hy as [_ <-]. apply Qle_refl.
  - intros j y Hj. lia.
Qed.

Lemma length_penalize_token (penalty : Q) (logits : list Q) (token : Z) :
  length (penalize_token penalty logits token) = length logits.
Proof.
  unfold penalize_token. destruct (0 <=? token)%Z; [apply length_alter | done].
Qed.

Lemma length_sampling_repetition_penalty logits history_ids n penalty :
  length (sampling_repetition_penalty logits history_ids n penalty) = length logits.
Proof.
  unfold sampling_repetition_penalty.
  generalize (drop (length history_ids - Z.to_nat n) history_ids).
  intros window. revert logits.
  induction window as [|token window IH]; intros logits; [done|].
  simpl. by rewrite IH, length_penalize_token.
Qed.

Lemma length_logits_pre_process history_ids logits p :
  length (logits_pre_process history_ids logits p) = length logits.
Proof.
  unfold logits_pre_process.
  destruct (negb _); [|done]. destruct (negb _); [|done].
  apply length_sampling_repetition_penalty.
Qed.

Lemma get_out_token_id_greedy rng history_ids logits p :
  do_sample p = false ->
  get_out_token_id rng history_ids logits p
  = Some (Z.of_nat (max_element (logits_pre_process history_ids logits p)),
          logits_pre_process history_ids logits p, rng).
Proof. intros E. unfold get_out_token_id. by rewrite E. Qed.

Lemma logits_pre_process_ext history_ids logits p p' :
  repeat_penalty p' = repeat_penalty p -> repeat_last_n p' = repeat_last_n p ->
  logits_pre_process history_ids logits p' = logits_pre_process history_ids logits p.
Proof. intros E1 E2. unfold logits_pre_process. by rewrite E1, E2. Qed.

(** C1 (amended).  With [do_sample = false] and non-empty logits, the
    sampler returns the position of the largest element, the first one
    among equals, of the logits as the repetition penalty leaves them: the
    penalty block runs before the test of [do_sample] and the returned
    buffer is the penalised one.  The result is the same for every
    temperature, top_k, top_p and seed, and it does not touch the
    generator.  When [repeat_penalty] is 1 or the penalty window
    [min (length history) repeat_last_n] is 0 the buffer is the input and
    the token is the arg-max of the input logits. *)
Theorem greedy_is_first_maximum_after_penalty
    (rng : option mt19937) (history_ids : list Z) (logits : list Q) (p : params) :
  do_sample p = false -> logits <> [] ->
  let penalised := logits_pre_process history_ids logits p in
  get_out_token_id rng history_ids logits p
    = Some (Z.of_nat (max_element penalised), penalised, rng)
  /\ first_maximum penalised (max_element penalised)
  /\ (forall (p' : params) (rng' : option mt19937),
        do_sample p' = false ->
        repeat_penalty p' = repeat_penalty p ->
        repeat_last_n p' = repeat_last_n p ->
        get_out_token_id rng' history_ids logits p'
        = Some (Z.of_nat (max_element penalised), penalised, rng'))
  /\ (Qeq_bool (repeat_penalty p) 1 = true
      \/ Z.min (Z.of_nat (length history_ids)) (repeat_last_n p) = 0%Z ->
      penalised = logits /\ first_maximum logits (max_element penalised)).
Proof.
  intros Hgreedy Hne penalised.
  assert (first_maximum penalised (max_element penalised)) as Hmax.
  { apply max_element_first_maximum. intros E.
    apply (f_equal length) in E. unfold penalised in E.
    rewrite length_logits_pre_process in E. by destruct logits. }
  split; [by apply get_out_token_id_greedy |].
  split; [done |].
  split.
  - intros p' rng' Hgreedy' E1 E2.
    rewrite (get_out_token_id_greedy _ _ _ _ Hgreedy').
    by rewrite (logits_pre_process_ext _ _ _ _ E1 E2).
  - intros Hoff.
    assert (penalised = logits) as E.
    { unfold penalised, logits_pre_process.
      destruct Hoff as [-> | ->]; [done|].
      simpl. by destruct (negb _). }
    split; [done|]. by rewrite <- E at 1.
Qed.

(** *** The sampling branch *)

Lemma insert_desc_perm (x : TokenIdScore) (l : list TokenIdScore) :
  insert_desc x l ≡ₚ x :: l.
Proof.
  induction l as [|y l IH]; simpl; [done|].
  destruct (Qle_bool _ _); [done|]. rewrite IH. apply Permutation_swap.
Qed.

Lemma sort_desc_perm (l : list TokenIdScore) : sort_desc l ≡ₚ l.
Proof.
  induction l as [|x l IH]; simpl; [done|].
  by rewrite insert_desc_perm, IH.
Qed.

Lemma nucleus_size_pos (probs : list Q) (top_p acc : Q) :
  probs <> [] -> 0 < nucleus_size probs top_p acc.
Proof.
  destruct probs as [|q probs]; [done | intros _]. simpl.
  destruct (Qle_bool _ _); lia.
Qed.

Lemma length_softmax (scores : list Q) : length (softmax scores) = length scores.
Proof. unfold softmax. by rewrite !length_fmap. Qed.

Lemma sampling_softmax_inplace_length token_scores :
  length (sampling_softmax_inplace token_scores) = length token_scores.
Proof.
  unfold sampling_softmax_inplace.
  apply length_zip_with_l_eq. by rewrite length_softmax, length_fmap.
Qed.

Lemma sampling_softmax_inplace_ids n token_scores :
  ids_below n token_scores -> ids_below n (sampling_softmax_inplace token_scores).
Proof.
  intros Hids. unfold sampling_softmax_inplace, ids_below.
  eapply Forall_zip_with_fst; [exact Hids|].
  apply Forall_forall. intros q _ ts Hts. exact Hts.
Qed.

Lemma top_k_block_ids n (k : Z) (token_scores : list TokenIdScore) :
  ids_below n token_scores ->
  ids_below n (if (0 <? k)%Z && (k <? Z.of_nat (length token_scores))%Z
               then take (Z.to_nat k) (sampling_top_k token_scores)
               else token_scores).
Proof.
  intros Hids. destruct (_ && _); [|done].
  apply Forall_take. unfold sampling_top_k, ids_below.
  by rewrite sort_desc_perm.
Qed.

Lemma top_p_block_ids n (q : Q) (token_scores : list TokenIdScore) :
  ids_below n token_scores ->
  ids_below n (if Qltb 0 q && Qltb q 1
               then let '(sorted, pos) := sampling_top_p token_scores q in
                    take pos sorted
               else token_scores).
Proof.
  intros Hids. destruct (_ && _); [|done]. simpl.
  apply Forall_take. unfold ids_below. by rewrite sort_desc_perm.
Qed.

Lemma top_k_block_length_pos (k : Z) (token_scores : list TokenIdScore) :
  0 < length token_scores ->
  0 < length (if (0 <? k)%Z && (k <? Z.of_nat (length token_scores))%Z
              then take (Z.to_nat k) (sampling_top_k token_scores)
              else token_scores).
Proof.
  intros Hpos. destruct (_ && _) eqn:E; [|done].
  apply andb_true_iff in E as [Hk _]. apply Z.ltb_lt in Hk.
  rewrite length_take. unfold sampling_top_k.
  rewrite (Permutation_length (sort_desc_perm token_scores)). lia.
Qed.

Lemma top_p_block_length_pos (q : Q) (token_scores : list TokenIdScore) :
  0 < length token_scores ->
  0 < length (if Qltb 0 q && Qltb q 1
              then let '(sorted, pos) := sampling_top_p token_scores q in
                   take pos sorted
              else token_scores).
Proof.
  intros Hpos. destruct (_ && _); [|done]. simpl.
  rewrite length_take, (Permutation_length (sort_desc_perm token_scores)).
  assert (0 < nucleus_size (softmax (score <$> sort_desc token_scores)) q 0).
  { apply nucleus_size_pos. intros E. apply (f_equal length) in E.
    rewrite length_softmax, length_fmap,
      (Permutation_length (sort_desc_perm token_scores)) in E.
    simpl in E. lia. }
  lia.
Qed.

Lemma candidates_ids (logits : list Q) (p : params) :
  ids_below (length logits) (candidates logits p).
Proof.
  unfold candidates. apply top_p_block_ids, top_k_block_ids.
  apply Forall_lookup. intros i ts Hts.
  rewrite list_lookup_imap in Hts.
  destruct (logits !! i) as [x|] eqn:Hx; simplify_eq/=.
  apply lookup_lt_Some in Hx. lia.
Qed.

Lemma candidates_length_pos (logits : list Q) (p : params) :
  logits <> [] -> 0 < length (candidates logits p).
Proof.
  intros Hne. unfold candidates.
  apply top_p_block_length_pos, top_k_block_length_pos.
  rewrite length_imap. destruct logits; [done | simpl; lia].
Qed.

(** C4.  With [do_sample = true] and non-empty logits, the candidate list
    left by the top-k and top-p blocks is not empty, whatever buffer they
    run on, and each candidate names a position of it; the call returns a
    token that is a position of the input logits, an integer in
    [0, vocab_size). *)
Theorem sampling_keeps_a_candidate
    (rng : option mt19937) (history_ids : list Z) (logits : list Q) (p : params) :
  draws_in_range -> do_sample p = true -> logits <> [] ->
  (forall buffer : list Q,
     buffer <> [] ->
     candidates buffer p <> []
     /\ forall ts, ts ∈ candidates buffer p ->
                   (0 <= id ts < Z.of_nat (length buffer))%Z) /\
  exists token logits' g,
    get_out_token_id rng history_ids logits p = Some (token, logits', Some g)
    /\ (0 <= token < Z.of_nat (length logits))%Z.
Proof.
  intros Hdraw Hsample Hne. split.
  - intros buffer Hbuf. split.
    + intros E. pose proof (candidates_length_pos buffer p Hbuf) as Hpos.
      rewrite E in Hpos. simpl in Hpos. lia.
    + intros ts Hts. by eapply (proj1 (Forall_forall _ _) (candidates_ids buffer p)).
  - unfold get_out_token_id. rewrite Hsample.
    set (pre := logits_pre_process history_ids logits p).
    set (scaled := if Qltb 0 (temperature p) then _ else pre).
    assert (length scaled = length logits) as Hlen.
    { unfold scaled, pre. destruct (Qltb _ _).
      - unfold sampling_temperature.
        by rewrite length_fmap, length_logits_pre_process.
      - apply length_logits_pre_process. }
    assert (scaled <> []) as Hscaled.
    { intros E. rewrite E in Hlen. by destruct logits. }
    set (token_scores := sampling_softmax_inplace (candidates scaled p)).
    assert (0 < length token_scores) as Hpos.
    { unfold token_scores. rewrite sampling_softmax_inplace_length.
      by apply candidates_length_pos. }
    assert (ids_below (length logits) token_scores) as Hids.
    { unfold token_scores. apply sampling_softmax_inplace_ids.
      rewrite <- Hlen. apply candidates_ids. }
    set (g0 := default (mt19937_seed (seed p)) rng).
    pose proof (Hdraw (score <$> token_scores) g0) as Hk.
    destruct (discrete_distribution (score <$> token_scores) g0) as [k g].
    simpl in Hk. rewrite length_fmap in Hk.
    destruct (token_scores !! k) as [ts|] eqn:Hts.
    + simpl. eexists _, _, _. split; [done|].
      by eapply (Forall_lookup_1 _ _ _ _ Hids).
    + apply lookup_ge_None in Hts.
      assert (score <$> token_scores <> []) as Hw.
      { intros E. apply (f_equal length) in E. rewrite length_fmap in E.
        simpl in E. lia. }
      specialize (Hk Hw). lia.
Qed.

End SamplingFacts.

(** *** The sampler on concrete inputs *)

Section SamplingExamples.

Import Sampling.

#[local] Existing Instance example_runtime.

(** C1 fails: token 0 is in the history, the penalty 2 halves its logit
    4, and the greedy choice becomes token 1 although the largest input
    logit is at 0; with penalty 1 the choice is 0.  The buffer the call
    leaves is the penalised one. *)
Lemma greedy_follows_repeat_penalty :
  get_out_token_id None [0%Z] [4%Q; 3%Q] (greedy 2 1)
  = Some (1%Z, [(4 # 2)%Q; 3%Q], None)
  /\ max_element [4%Q; 3%Q] = 0
  /\ get_out_token_id None [0%Z] [4%Q; 3%Q] (greedy 1 1)
     = Some (0%Z, [4%Q; 3%Q], None).
Proof. repeat split. Qed.

Lemma greedy_is_first_maximum_after_penalty_witness :
  get_out_token_id None [0%Z] [4%Q; 3%Q] (greedy 2 1)
  = Some (1%Z, [(4 # 2)%Q; 3%Q], None)
  /\ first_maximum [(4 # 2)%Q; 3%Q] 1.
Proof.
  destruct (greedy_is_first_maximum_after_penalty
              None [0%Z] [4%Q; 3%Q] (greedy 2 1))
    as (Hcall & Hmax & _); [reflexivity | discriminate |].
  split; [exact Hcall | exact Hmax].
Defined.

Lemma example_runtime_draws_in_range : draws_in_range.
Proof.
  intros weights g Hne. simpl.
  assert (0 < Z.of_nat (length weights))%Z as Hpos
    by (destruct weights; [done | simpl; lia]).
  pose proof (Z.mod_pos_bound g _ Hpos). lia.
Qed.

Lemma sampling_keeps_a_candidate_witness :
  candidates [1%Q; 5%Q; 5%Q; 2%Q] (sampled 3 (9 # 10) 1) <> []
  /\ exists token logits' g,
       get_out_token_id None [2%Z] [1%Q; 5%Q; 5%Q; 2%Q] (sampled 3 (9 # 10) 1)
       = Some (token, logits', Some g)
       /\ (0 <= token < 4)%Z.
Proof.
  destruct (sampling_keeps_a_candidate
              None [2%Z] [1%Q; 5%Q; 5%Q; 2%Q] (sampled 3 (9 # 10) 1))
    as [Hcand Hcall];
    [apply example_runtime_draws_in_range | reflexivity | discriminate |].
  split; [by apply Hcand | exact Hcall].
Defined.

End SamplingExamples.

(** ** The speculative-decoding sample *)

Section TensorFacts.

Import Speculative.

Lemma shl_int_0 (n : nat) : shl_int 0 n = 0%Z.
Proof. unfold shl_int. by rewrite Z.shiftl_0_l. Qed.

(** C10.  [convert_to_vector] returns the empty vector for every tensor:
    its loop condition [i << shape.back()] is 0 at [i = 0], so the body
    never runs.  [append_element] therefore builds its result from the
    one-element vector [[element]] and gives it the shape
    [{BATCH_SIZE, shape.back()}] of the original tensor. *)
Theorem convert_to_vector_is_empty (fuel : nat) (tensor : Tensor) :
  convert_to_vector fuel tensor = Ok []
  /\ forall element : Z,
       append_element fuel tensor element
       = Ok {| shape := [1; back (shape tensor)]; data := [element] |}.
Proof.
  assert (convert_to_vector fuel tensor = Ok []) as E.
  { unfold convert_to_vector. destruct fuel; simpl; by rewrite shl_int_0. }
  split; [done|]. intros element. unfold append_element. by rewrite E.
Qed.

End TensorFacts.

Section SpeculativeFacts.

Import Speculative.

Variables draft target : LanguageModel.
Variable tokenize : list byte -> list Z * list Z.
Variable detokenize : list Z -> list byte.

#[local] Abbreviation body := (Speculative.body draft target detokenize).
#[local] Abbreviation decode_loop := (Speculative.decode_loop draft target detokenize).
#[local] Abbreviation loop_state := (Speculative.loop_state draft target).

(** One pass of the loop. *)
Lemma body_Ok (st st' : loop_state) (it : iteration) :
  body st = Ok (st', it) ->
  it = {| draft_input := out_token _ _ st;
          target_input := target_out_token _ _ st;
          put_token := out_token _ _ st |}
  /\ lm _ _ st' = decode_step (lm _ _ st) (out_token _ _ st) tiny_llama_kv_size
  /\ arg_max_token (logits (lm _ _ st')) 0 (vocab_size draft) = Ok (out_token _ _ st')
  /\ target_out_token _ _ st' = target_out_token _ _ st
  /\ iter _ _ st' = (iter _ _ st + 1)%Z.
Proof.
  unfold Speculative.body. intros E.
  apply bind_Ok in E as ([streamer out] & _ & E).
  apply bind_Ok in E as (arg_max & Harg & E).
  by simplify_eq/=.
Qed.

Lemma body_fuel_free (st : loop_state) : body st <> OutOfFuel.
Proof.
  unfold Speculative.body.
  destruct (TextStreamer.put _ _ _) as [[streamer out]|]; simpl; [|done].
  unfold arg_max_token. by destruct (window _ _ _).
Qed.

Lemma decode_loop_unfold (fuel : nat) (st : loop_state) :
  decode_loop fuel st =
  if negb (out_token _ _ st =? SPECIAL_EOS_TOKEN)%Z && (iter _ _ st <? max_iter)%Z then
    match fuel with
    | 0 => OutOfFuel
    | S fuel' =>
        '(st, it) ← body st;
        '(st, its) ← decode_loop fuel' st;
        Ok (st, it :: its)
    end
  else Ok (st, []).
Proof. by destruct fuel. Qed.



(** The loop ends within [max_iter - iter] passes; it gives the streamer
    no end-of-sequence token and stops at the first one chosen. *)
Lemma decode_loop_terminates (fuel : nat) :
  forall st : loop_state,
    Z.to_nat (max_iter - iter _ _ st) <= fuel ->
    decode_loop fuel st <> OutOfFuel
    /\ forall st' its,
         decode_loop fuel st = Ok (st', its) ->
         length its <= Z.to_nat (max_iter - iter _ _ st)
         /\ iter _ _ st' = (iter _ _ st + Z.of_nat (length its))%Z
         /\ Forall (fun it => put_token it <> SPECIAL_EOS_TOKEN) its
         /\ (out_token _ _ st' = SPECIAL_EOS_TOKEN
             \/ length its = Z.to_nat (max_iter - iter _ _ st)).
Proof.
  induction fuel as [|fuel IH]; intros st Hfuel;
    rewrite decode_loop_unfold;
    destruct (negb _ && _) eqn:Hc.
  - apply andb_true_iff in Hc as [_ Hit]. apply Z.ltb_lt in Hit. lia.
  - split; [done|]. intros st' its E. simplify_eq/=.
    repeat split; [lia | lia | by constructor |].
    apply andb_false_iff in Hc as [Hc | Hc].
    + left. apply negb_false_iff in Hc. by apply Z.eqb_eq.
    + right. apply Z.ltb_ge in Hc. lia.
  - apply andb_true_iff in Hc as [Heos Hit].
    apply negb_true_iff, Z.eqb_neq in Heos. apply Z.ltb_lt in Hit.
    destruct (body st) as [[st1 it]| |] eqn:Hbody; simpl;
      [| by split | by destruct (body_fuel_free st)].
    apply body_Ok in Hbody as (-> & _ & _ & _ & Hiter).
    destruct (IH st1) as [Hfin Hres]; [lia|].
    destruct (decode_loop fuel st1) as [[st2 its2]| |] eqn:Hloop;
      simpl; [| by split | done].
    split; [done|]. intros st' its E. simplify_eq/=.
    destruct (Hres _ _ eq_refl) as (Hlen & Hiter' & Hall & Hend).
    repeat split.
    + lia.
    + lia.
    + by constructor.
    + destruct Hend as [Hend | Hend]; [by left | right; lia].
  - split; [done|]. intros st' its E. simplify_eq/=.
    repeat split; [lia | lia | by constructor |].
    apply andb_false_iff in Hc as [Hc | Hc].
    + left. apply negb_false_iff in Hc. by apply Z.eqb_eq.
    + right. apply Z.ltb_ge in Hc. lia.
Qed.

Lemma start_iter (prompt : list byte) (st : loop_state) :
  start draft target tokenize prompt = Ok st -> iter _ _ st = 0%Z.
Proof.
  unfold start. destruct (tokenize prompt) as [ids mask]. intros E.
  apply bind_Ok in E as (last_pos & _ & E).
  apply bind_Ok in E as (first & _ & E).
  apply bind_Ok in E as (target_choice & _ & E).
  by injection E as <-.
Qed.

End SpeculativeFacts.

(** *** The sample on concrete models *)

Section SpeculativeExamples.

Import Speculative.


End SpeculativeExamples.

(** ** The Qwen backend *)

Section BackendFacts.

Import Backend.

Context `{StdRuntime}.

Variable m : StatefulModel.
Variable encode : list byte -> Z -> list Z.
Variable decode : list Z -> list byte.
Variable duration_ms : nat -> Q.
Variable cb : Type.
Variable api_callback : cb -> Z -> bool -> cb * Z * bool.

#[local] Abbreviation api := (api_interface m).
#[local] Abbreviation generate_first_token :=
  (Backend.generate_first_token m duration_ms).
#[local] Abbreviation generate_next_token :=
  (Backend.generate_next_token m duration_ms).
#[local] Abbreviation invoke := (Backend.invoke m cb api_callback).
#[local] Abbreviation stream_loop :=
  (Backend.stream_loop m duration_ms cb api_callback).
#[local] Abbreviation text_loop := (Backend.text_loop m duration_ms).
#[local] Abbreviation same_control := (Backend.same_control m).

Lemma sample_Ok (a a' : api) r history_ids p token :
  sample m a r history_ids p = Ok (a', token) ->
  _stop_generation _ a' = _stop_generation _ a
  /\ _new_token_id _ a' = _new_token_id _ a
  /\ _tokenizer_config _ a' = _tokenizer_config _ a
  /\ _perf_statistic _ a' = _perf_statistic _ a.
Proof.
  unfold sample. intros E.
  apply bind_Ok in E as (w & _ & E).
  apply bind_Ok in E as ([[token' w'] g] & _ & E).
  by simplify_eq/=.
Qed.

Lemma sample_fuel_free (a : api) r history_ids p :
  sample m a r history_ids p <> OutOfFuel.
Proof.
  unfold sample. destruct (window _ _ _) as [w|]; simpl; [|done].
  by destruct (Sampling.get_out_token_id _ _ _ _) as [[[token' w'] g]|].
Qed.

Lemma generate_first_token_Ok (a a' : api) input_ids p token :
  generate_first_token a input_ids p = Ok (a', token) -> same_control a a'.
Proof.
  unfold Backend.generate_first_token. intros E.
  apply bind_Ok in E as (r & _ & E). simpl in E.
  apply sample_Ok in E as (E1 & E2 & E3 & E4). unfold Backend.same_control.
  rewrite E1, E2, E3, E4. simpl. unfold same_load_statistics. by simpl.
Qed.

Lemma generate_first_token_fuel_free (a : api) input_ids p :
  generate_first_token a input_ids p <> OutOfFuel.
Proof.
  unfold Backend.generate_first_token.
  destruct (_infer_request _ a); simpl; [apply sample_fuel_free | done].
Qed.

Lemma generate_next_token_Ok (a a' : api) input_token history_ids p token :
  generate_next_token a input_token history_ids p = Ok (a', token) ->
  same_control a a'.
Proof.
  unfold Backend.generate_next_token. intros E.
  apply bind_Ok in E as (r & _ & E). simpl in E.
  apply sample_Ok in E as (E1 & E2 & E3 & E4). unfold Backend.same_control.
  rewrite E1, E2, E3, E4. simpl. unfold same_load_statistics. by simpl.
Qed.

Lemma generate_next_token_fuel_free (a : api) input_token history_ids p :
  generate_next_token a input_token history_ids p <> OutOfFuel.
Proof.
  unfold Backend.generate_next_token.
  destruct (_infer_request _ a); simpl; [apply sample_fuel_free | done].
Qed.

Lemma invoke_spec (a a' : api) (c c' : cb) (call : callback_call) :
  invoke a c = (a', c', call) ->
  call = {| cb_token := _new_token_id _ a; cb_stop := _stop_generation _ a |}
  /\ api_callback c (_new_token_id _ a) (_stop_generation _ a)
     = (c', _new_token_id _ a', _stop_generation _ a')
  /\ _perf_statistic _ a' = _perf_statistic _ a
  /\ _tokenizer_config _ a' = _tokenizer_config _ a.
Proof.
  unfold Backend.invoke.
  destruct (api_callback _ _ _) as [[c1 token] stop]. intros E.
  by simplify_eq/=.
Qed.

(** One unfolding of the streamed loop that ends well. *)
Lemma stream_loop_Ok (fuel : nat) (a : api) (c : cb) output_token history_ids
    n_input p res :
  stream_loop fuel a c output_token history_ids n_input p = Ok res ->
  (proceed m a output_token (length history_ids - n_input) p = false
   /\ res = (a, c, history_ids, []))
  \/ (proceed m a output_token (length history_ids - n_input) p = true
      /\ exists fuel', fuel = S fuel'
         /\ ((_stop_generation _ a = true
              /\ exists a1 c1 call,
                   invoke a c = (a1, c1, call)
                   /\ res = (a1, c1, history_ids, [call]))
             \/ (_stop_generation _ a = false
                 /\ exists a1 token a2 c2 call a3 c3 history3 calls3,
                      generate_next_token a output_token history_ids p
                      = Ok (a1, token)
                      /\ invoke (with_token m a1 token (_stop_generation _ a1)) c
                         = (a2, c2, call)
                      /\ stream_loop fuel' a2 c2 token (history_ids ++ [token])
                                     n_input p
                         = Ok (a3, c3, history3, calls3)
                      /\ res = (a3, c3, history3, call :: calls3)))).
Proof.
  destruct fuel as [|fuel']; simpl;
    destruct (proceed _ _ _ _ _) eqn:Hp; intros E; try done.
  - left. by simplify_eq.
  - right. split; [done|]. exists fuel'. split; [done|].
    destruct (_stop_generation _ a) eqn:Hstop.
    + left. split; [done|].
      destruct (invoke a c) as [[a1 c1] call] eqn:Hinv.
      exists a1, c1, call. by simplify_eq.
    + right. split; [done|].
      apply bind_Ok in E as ([a1 token] & Hnext & E).
      destruct (invoke _ c) as [[a2 c2] call] eqn:Hinv.
      apply bind_Ok in E as ([[[a3 c3] history3] calls3] & Hloop & E).
      exists a1, token, a2, c2, call, a3, c3, history3, calls3.
      by simplify_eq.
  - left. by simplify_eq.
Qed.

(** The invocations of the callback made by the loop: one for each token
    it appends to the history, carrying that token, and then at most one
    more, made with the stop flag set.  The token of that last one is what
    the callback left in [_new_token_id]; it is absent when the flag is
    clear and the callback never sets it. *)
Lemma stream_loop_calls (fuel : nat) :
  forall (a : api) (c : cb) output_token history_ids n_input p a' c' history' calls,
    stream_loop fuel a c output_token history_ids n_input p
    = Ok (a', c', history', calls) ->
    exists token_calls stop_notice,
      calls = token_calls ++ stop_notice
      /\ history' = history_ids ++ (cb_token <$> token_calls)
      /\ (stop_notice = []
          \/ exists t,
               stop_notice = [{| cb_token := t; cb_stop := true |}]
               /\ ((forall c t s, (api_callback c t s).1.2 = t) ->
                   _new_token_id _ a = output_token ->
                   last history_ids = Some output_token ->
                   last history' = Some t))
      /\ (_stop_generation _ a = false ->
          (forall c t, (api_callback c t false).2 = false) ->
          stop_notice = []).
Proof.
  induction fuel as [|fuel IH]; intros a c tok hist n p a' c' hist' calls E;
    apply stream_loop_Ok in E
      as [[_ E] | (_ & fuel' & Hfuel & [(Hstop & a1 & c1 & call & Hinv & E)
          | (Hstop & a1 & token & a2 & c2 & call & a3 & c3 & h3 & calls3
             & Hnext & Hinv & Hloop & E)])];
    simplify_eq.
  - exists [], []. simpl. rewrite app_nil_r.
    split; [done|]. split; [done|]. split; [by left | done].
  - exists [], []. simpl. rewrite app_nil_r.
    split; [done|]. split; [done|]. split; [by left | done].
  - exists [], [call]. simpl. rewrite app_nil_r.
    apply invoke_spec in Hinv as (-> & _). rewrite Hstop.
    split; [done|]. split; [done|]. split.
    + right. eexists. split; [done|]. by intros _ -> ->.
    + intros Hclear. congruence.
  - destruct (IH _ _ _ _ _ _ _ _ _ _ Hloop)
      as (tcalls & notice & -> & -> & Hnotice & Hnone).
    apply generate_next_token_Ok in Hnext as (Hs1 & _).
    apply invoke_spec in Hinv as (-> & Hcb & _). simpl in Hcb.
    exists ({| cb_token := _new_token_id m (with_token m a1 token (_stop_generation m a1));
               cb_stop := _stop_generation m (with_token m a1 token (_stop_generation m a1)) |}
            :: tcalls), notice.
    split; [done|]. split; [by rewrite <- app_assoc|]. split.
    + destruct Hnotice as [-> | (t & -> & Ht)]; [by left | right].
      exists t. split; [done|]. intros Hkeep _ _.
      apply Ht; [done | | by rewrite last_snoc].
      specialize (Hkeep c token (_stop_generation m a1)).
      rewrite Hcb in Hkeep. exact Hkeep.
    + intros Hclear Hnever. apply Hnone; [|done].
      rewrite Hs1, Hclear in Hcb.
      specialize (Hnever c token). rewrite Hcb in Hnever. exact Hnever.
Qed.

Lemma proceed_ext (a a' : api) (output_token : Z) (count : nat) (p : params) :
  _tokenizer_config _ a' = _tokenizer_config _ a ->
  proceed m a' output_token count p = proceed m a output_token count p.
Proof. intros E. unfold proceed. by rewrite E. Qed.

Lemma default_last_cons (x t : Z) (l : list Z) :
  default x (last (t :: l)) = default t (last l).
Proof. destruct l as [|t' l]; [done|]. rewrite last_cons. by destruct (last (t' :: l)). Qed.

Lemma replay_tokens (c : cb) (token : Z) (stop : bool) (produced : list Z) :
  cb_token <$> token_calls cb (replay_callback cb api_callback c token stop produced)
  = produced.
Proof.
  revert c token stop. induction produced as [|t rest IH]; intros c token stop;
    simpl; [done|].
  destruct (api_callback c t stop) as [[c1 t1] s1]. simpl. by rewrite IH.
Qed.

Lemma replay_left_token (c : cb) (token : Z) (stop : bool) (produced : list Z) :
  (forall c t s, (api_callback c t s).1.2 = t) ->
  left_token cb (replay_callback cb api_callback c token stop produced)
  = default token (last produced).
Proof.
  intros Hkeep. revert c token stop.
  induction produced as [|t rest IH]; intros c token stop; simpl; [done|].
  specialize (Hkeep c t stop).
  destruct (api_callback c t stop) as [[c1 t1] s1]. simpl in *.
  by rewrite IH, Hkeep, default_last_cons.
Qed.

Lemma replay_left_stop (c : cb) (token : Z) (produced : list Z) :
  (forall c t, (api_callback c t false).2 = false) ->
  left_stop cb (replay_callback cb api_callback c token false produced) = false.
Proof.
  intros Hnever. revert c token.
  induction produced as [|t rest IH]; intros c token; simpl; [done|].
  specialize (Hnever c t).
  destruct (api_callback c t false) as [[c1 t1] s1]. simpl in *.
  rewrite Hnever. apply IH.
Qed.

(** The invocations made by the loop are those of the callback fed the
    tokens the loop appends, followed, exactly when the loop test holds
    with the stop flag set, by one invocation with the flag and the id the
    callback left. *)
Lemma stream_loop_replay (fuel : nat) :
  forall (a : api) (c : cb) output_token history_ids n_input p a' c' history' calls,
    stream_loop fuel a c output_token history_ids n_input p
    = Ok (a', c', history', calls) ->
    exists new,
      history' = history_ids ++ new
      /\ let r := replay_callback cb api_callback c (_new_token_id _ a)
                                  (_stop_generation _ a) new in
         calls = token_calls cb r
                 ++ (if proceed m a (default output_token (last new))
                                (length history' - n_input) p
                        && left_stop cb r
                     then [{| cb_token := left_token cb r; cb_stop := true |}]
                     else []).
Proof.
  induction fuel as [|fuel IH]; intros a c tok hist n p a' c' hist' calls E;
    apply stream_loop_Ok in E
      as [[Hp E] | (Hp & fuel' & Hfuel & [(Hstop & a1 & c1 & call & Hinv & E)
          | (Hstop & a1 & token & a2 & c2 & call & a3 & c3 & h3 & calls3
             & Hnext & Hinv & Hloop & E)])];
    simplify_eq.
  - exists []. rewrite app_nil_r. split; [done|]. simpl. by rewrite Hp.
  - exists []. rewrite app_nil_r. split; [done|]. simpl. by rewrite Hp.
  - exists []. rewrite app_nil_r. split; [done|]. simpl. rewrite Hp, Hstop. simpl.
    apply invoke_spec in Hinv as (-> & _). by rewrite Hstop.
  - destruct (IH _ _ _ _ _ _ _ _ _ _ Hloop) as (new & -> & Hcalls).
    apply generate_next_token_Ok in Hnext as (Hs1 & _ & Hc1 & _).
    apply invoke_spec in Hinv as (-> & Hcb & _ & Hc2). simpl in Hcb, Hc2.
    exists (token :: new). rewrite <- app_assoc. split; [done|].
    cbn zeta in Hcalls |- *. cbn [replay_callback].
    rewrite Hs1, Hstop in Hcb. rewrite Hstop, Hcb. simpl.
    rewrite Hs1, Hstop. f_equal.
    rewrite Hcalls, <- app_assoc. simpl.
    rewrite default_last_cons.
    by rewrite (proceed_ext a a2) by (by rewrite Hc2, Hc1).
Qed.

(** C3 (amended).  In a finished streamed [api_Generate] the callback is
    invoked once for each produced token, in order, with that token id
    behind its first pointer and the stop flag behind the second (the flag
    the previous invocation left): these are the invocations of
    [replay_callback] on the produced tokens.  They are followed by one
    more invocation exactly when the loop finds its test true with the stop
    flag set; that one carries the flag set and the id left in
    [_new_token_id], which is the last produced token again if the callback
    does not write through its first pointer; then the loop ends.  The
    flag is never found set when it is clear at the start and the callback
    never sets it. *)
Theorem callback_per_token_and_stop_notice
    (fuel : nat) (a : api) (c : cb) (prompt : list byte) (p : params)
    (a' : api) (c' : cb) (history_ids : list Z) (calls : list callback_call) :
  api_Generate_stream m encode duration_ms cb api_callback fuel a c prompt p
  = Ok (a', c', history_ids, calls) ->
  exists produced,
    history_ids = encode prompt (n_ctx p) ++ produced
    /\ produced <> []
    /\ let r := replay_callback cb api_callback c (_new_token_id _ a)
                                (_stop_generation _ a) produced in
       let found_set :=
         proceed m a (default 0%Z (last produced)) (length produced) p
         && left_stop cb r in
       cb_token <$> token_calls cb r = produced
       /\ calls = token_calls cb r
                  ++ (if found_set
                      then [{| cb_token := left_token cb r; cb_stop := true |}]
                      else [])
       /\ ((forall c t s, (api_callback c t s).1.2 = t) ->
           last produced = Some (left_token cb r))
       /\ (_stop_generation _ a = false ->
           (forall c t, (api_callback c t false).2 = false) ->
           left_stop cb r = false).
Proof.
  unfold api_Generate_stream. intros E.
  apply bind_Ok in E as ([a1 token] & Hfirst & E).
  destruct (invoke _ c) as [[a2 c2] call] eqn:Hinv.
  apply bind_Ok in E as ([[[a3 c3] history3] calls3] & Hloop & E).
  injection E as <- <- <- <-.
  apply generate_first_token_Ok in Hfirst as (Hs1 & _ & Hc1 & _).
  simpl in Hs1, Hc1.
  apply invoke_spec in Hinv as (-> & Hcb & _ & Hc2). simpl in Hcb, Hc2.
  destruct (stream_loop_replay _ _ _ _ _ _ _ _ _ _ _ Hloop)
    as (new & -> & Hcalls).
  exists (token :: new). rewrite <- app_assoc. split; [done|]. split; [done|].
  cbn zeta in Hcalls |- *.
  split; [apply replay_tokens|]. split; [|split].
  - cbn [replay_callback]. rewrite Hs1 in Hcb. rewrite Hcb. simpl.
    rewrite Hs1. f_equal. rewrite Hcalls. f_equal.
    rewrite default_last_cons.
    rewrite (proceed_ext a a2) by (by rewrite Hc2, Hc1).
    by replace (length ((encode prompt (n_ctx p) ++ [token]) ++ new)
                - length (encode prompt (n_ctx p)))
      with (S (length new)) by (rewrite !length_app; simpl; lia).
  - intros Hkeep. rewrite (replay_left_token _ _ _ _ Hkeep).
    destruct new as [|t' new]; [done|].
    rewrite !last_cons. by destruct (last new).
  - intros -> Hnever. by apply replay_left_stop.
Qed.

Lemma same_load_statistics_refl s : same_load_statistics s s.
Proof. by unfold same_load_statistics. Qed.

Lemma same_load_statistics_trans s1 s2 s3 :
  same_load_statistics s1 s2 -> same_load_statistics s2 s3 ->
  same_load_statistics s1 s3.
Proof.
  unfold same_load_statistics.
  intros (E1 & E2 & E3 & E4) (F1 & F2 & F3 & F4).
  by rewrite F1, F2, F3, F4.
Qed.

(** The loop leaves the load statistics and the configuration as they
    are, and its history extends the one it starts from. *)
Lemma stream_loop_frame (fuel : nat) :
  forall (a : api) (c : cb) output_token history_ids n_input p a' c' history' calls,
    stream_loop fuel a c output_token history_ids n_input p
    = Ok (a', c', history', calls) ->
    same_load_statistics (_perf_statistic _ a) (_perf_statistic _ a')
    /\ input_token_num (_perf_statistic _ a') = input_token_num (_perf_statistic _ a)
    /\ _tokenizer_config _ a' = _tokenizer_config _ a
    /\ length history_ids <= length history'.
Proof.
  induction fuel as [|fuel IH]; intros a c tok hist n p a' c' hist' calls E;
    apply stream_loop_Ok in E
      as [[_ E] | (_ & fuel' & Hfuel & [(Hstop & a1 & c1 & call & Hinv & E)
          | (Hstop & a1 & token & a2 & c2 & call & a3 & c3 & h3 & calls3
             & Hnext & Hinv & Hloop & E)])];
    simplify_eq.
  - split; [apply same_load_statistics_refl | done].
  - split; [apply same_load_statistics_refl | done].
  - apply invoke_spec in Hinv as (_ & _ & -> & ->).
    split; [apply same_load_statistics_refl | done].
  - destruct (IH _ _ _ _ _ _ _ _ _ _ Hloop) as (Hs & Hn & Hc & Hlen).
    apply generate_next_token_Ok in Hnext as (_ & _ & Hc1 & Hs1 & Hn1).
    apply invoke_spec in Hinv as (_ & _ & Hs2 & Hc2). simpl in Hs2, Hc2.
    rewrite Hs2 in Hs, Hn. rewrite Hc2 in Hc.
    split; [by eapply same_load_statistics_trans|].
    split; [by rewrite Hn, Hn1|]. split; [by rewrite Hc, Hc1|].
    rewrite length_app in Hlen. simpl in Hlen. lia.
Qed.

(** The parts of a finished streamed [api_Generate]. *)
Lemma api_Generate_stream_Ok (fuel : nat) (a : api) (c : cb) prompt p
    a' c' history_ids calls :
  api_Generate_stream m encode duration_ms cb api_callback fuel a c prompt p
  = Ok (a', c', history_ids, calls) ->
  let input_ids := encode prompt (n_ctx p) in
  let a0 := with_input_token_num m (with_status m a inference)
                                 (Z.of_nat (length input_ids)) in
  exists a1 token a2 c2 call a3 calls3,
    generate_first_token a0 input_ids p = Ok (a1, token)
    /\ invoke (with_token m a1 token (_stop_generation _ a1)) c = (a2, c2, call)
    /\ stream_loop fuel a2 c2 token (input_ids ++ [token]) (length input_ids) p
       = Ok (a3, c', history_ids, calls3)
    /\ calls = call :: calls3
    /\ a' = with_status m
              (finish m a3 (Z.of_nat (length history_ids - length input_ids)))
              loaded.
Proof.
  unfold api_Generate_stream. intros E.
  apply bind_Ok in E as ([a1 token] & Hfirst & E).
  destruct (invoke _ c) as [[a2 c2] call] eqn:Hinv.
  apply bind_Ok in E as ([[[a3 c3] history3] calls3] & Hloop & E).
  injection E as <- <- <- <-.
  by exists a1, token, a2, c2, call, a3, calls3.
Qed.

(** C8.  On an object with a loaded model, [api_Reset] sets every field
    of the statistics to zero and resets the variable state of the infer
    request; the request stays in place with its tensors, the vocabulary
    size is kept and the status is [loaded].  A streamed [api_Generate]
    that completes does not zero the statistics: the load, unload, cancel
    and tokenizer durations are as before, the input count is the prompt's
    and the generated count is at least one. *)
Theorem reset_zeroes_statistics_only_on_reset :
  (forall (a : api) (r : InferRequest m),
     _infer_request _ a = Some r ->
     exists a',
       api_Reset m a = Ok a'
       /\ _perf_statistic _ a'
          = {| llm_load_duration := 0; llm_unload_duration := 0;
               llm_cancel_duration := 0; tokenizer_load_duration := 0;
               llm_first_infer_duration := 0; llm_prompt_evaluation_speed := 0;
               llm_generate_next_token_duration := 0;
               llm_average_token_per_second := 0;
               input_token_num := 0; generated_token_num := 0 |}
       /\ (exists r', _infer_request _ a' = Some r'
             /\ state r' = reset_state m
             /\ input_ids r' = input_ids r
             /\ attention_mask r' = attention_mask r
             /\ position_ids r' = position_ids r
             /\ beam_idx r' = beam_idx r
             /\ logits r' = logits r)
       /\ _vocab_size _ a' = _vocab_size _ a
       /\ _api_status _ a' = loaded) /\
  (forall fuel (a : api) (c : cb) prompt p a' c' history_ids calls,
     api_Generate_stream m encode duration_ms cb api_callback fuel a c prompt p
     = Ok (a', c', history_ids, calls) ->
     same_load_statistics (_perf_statistic _ a) (_perf_statistic _ a')
     /\ input_token_num (_perf_statistic _ a')
        = Z.of_nat (length (encode prompt (n_ctx p)))
     /\ (1 <= generated_token_num (_perf_statistic _ a'))%Z
     /\ _perf_statistic _ a' <> zeroed
     /\ _api_status _ a' = loaded).
Proof.
  split.
  - intros a r Hr. unfold api_Reset. rewrite Hr. simpl.
    eexists. split; [done|]. simpl. split; [done|].
    split; [|done]. by eexists.
  - intros fuel a c prompt p a' c' history_ids calls E.
    apply api_Generate_stream_Ok in E
      as (a1 & token & a2 & c2 & call & a3 & calls3
          & Hfirst & Hinv & Hloop & -> & ->).
    apply generate_first_token_Ok in Hfirst as (_ & _ & _ & Hs1 & Hn1).
    apply invoke_spec in Hinv as (_ & _ & Hs2 & _). simpl in Hs2.
    apply stream_loop_frame in Hloop as (Hs3 & Hn3 & _ & Hlen).
    rewrite Hs2 in Hs3, Hn3.
    assert (1 <= Z.of_nat (length history_ids - length (encode prompt (n_ctx p))))%Z
      as Hgen.
    { rewrite length_app in Hlen. simpl in Hlen. lia. }
    simpl. split.
    + destruct Hs1 as (A1 & A2 & A3 & A4). destruct Hs3 as (B1 & B2 & B3 & B4).
      unfold same_load_statistics. simpl in *.
      by rewrite B1, B2, B3, B4, A1, A2, A3, A4.
    + split; [by rewrite Hn3, Hn1|]. split; [done|]. split; [|done].
      intros Hz. apply (f_equal generated_token_num) in Hz.
      simpl in Hz. lia.
Qed.

(** *** Termination of the loops *)

Lemma to_size_t_small (z : Z) : (0 <= z < 2 ^ 64)%Z -> to_size_t z = z.
Proof. intros Hz. unfold to_size_t. by apply Z.mod_small. Qed.

Lemma proceed_true (a : api) (output_token : Z) (count : nat) (p : params) :
  (0 <= n_predict p < 2 ^ 31)%Z -> (Z.of_nat count < 2 ^ 32)%Z ->
  proceed m a output_token count p = true ->
  ¬ is_end (_tokenizer_config _ a) output_token
  /\ (Z.of_nat count < n_predict p)%Z.
Proof.
  intros Hn Hc. unfold proceed. rewrite !andb_true_iff, !negb_true_iff.
  rewrite !to_size_t_small by lia.
  intros [[E1 E2] E3].
  apply Z.eqb_neq in E1, E2. apply Z.ltb_lt in E3.
  split; [|done]. by intros [? | ?].
Qed.

(** Appending a token to produced tokens that stop at an end id. *)
Lemma ends_at_eos_cons (config : QwenConfig) (token : Z) (new : list Z) :
  (new <> [] -> ¬ is_end config token) ->
  ends_at_eos config new ->
  ends_at_eos config (token :: new).
Proof.
  intros Hfirst Hnew [|i] t Hi Hend; simpl in *.
  - simplify_eq. destruct new; [done|]. by destruct Hfirst.
  - f_equal. by eapply Hnew.
Qed.

Lemma text_loop_terminates (fuel : nat) :
  forall (a : api) output_token output_ids history_ids p,
    (0 <= n_predict p < 2 ^ 31)%Z ->
    (Z.of_nat (length output_ids) < 2 ^ 32)%Z ->
    Z.to_nat (n_predict p - Z.of_nat (length output_ids)) <= fuel ->
    text_loop fuel a output_token output_ids history_ids p <> OutOfFuel
    /\ forall a' output_ids',
         text_loop fuel a output_token output_ids history_ids p
         = Ok (a', output_ids') ->
         exists new,
           output_ids' = output_ids ++ new
           /\ (Z.of_nat (length output_ids')
               <= Z.max (Z.of_nat (length output_ids)) (n_predict p))%Z
           /\ (new <> [] -> ¬ is_end (_tokenizer_config _ a) output_token)
           /\ ends_at_eos (_tokenizer_config _ a) new.
Proof.
  induction fuel as [|fuel IH]; intros a tok out hist p Hn Hlen Hfuel; simpl;
    destruct (proceed _ _ _ _ _ && _) eqn:Hc.
  - apply andb_true_iff in Hc as [Hc _].
    apply proceed_true in Hc as [_ Hc]; [lia | done | done].
  - split; [done|]. intros a' out' E. simplify_eq.
    exists []. rewrite app_nil_r. split; [done|]. split; [lia|].
    split; [done|]. by intros i t Hi.
  - apply andb_true_iff in Hc as [Hc _].
    apply proceed_true in Hc as [Hend Hc]; [| done | done].
    destruct (generate_next_token a tok hist p) as [[a1 t1]| |] eqn:Hnext;
      simpl; [| by split | by destruct (generate_next_token_fuel_free a tok hist p)].
    apply generate_next_token_Ok in Hnext as (_ & _ & Hcfg & _).
    destruct (IH a1 t1 (out ++ [t1]) (hist ++ [t1]) p) as [Hfin Hres];
      [done | rewrite length_app; simpl; lia | rewrite length_app; simpl; lia |].
    split; [done|]. intros a' out' E.
    destruct (Hres _ _ E) as (new & -> & Hbound & Hfirst & Hnew).
    exists (t1 :: new). rewrite <- app_assoc. split; [done|].
    rewrite Hcfg in Hfirst, Hnew.
    split; [rewrite !length_app in Hbound |- *; simpl in Hbound |- *; lia|].
    split; [done|]. by apply ends_at_eos_cons.
  - split; [done|]. intros a' out' E. simplify_eq.
    exists []. rewrite app_nil_r. split; [done|]. split; [lia|].
    split; [done|]. by intros i t Hi.
Qed.

Lemma stream_loop_terminates (fuel : nat) :
  forall (a : api) (c : cb) output_token history_ids n_input p,
    (0 <= n_predict p < 2 ^ 31)%Z ->
    n_input <= length history_ids ->
    (Z.of_nat (length history_ids - n_input) < 2 ^ 32)%Z ->
    Z.to_nat (n_predict p - Z.of_nat (length history_ids - n_input)) <= fuel ->
    stream_loop fuel a c output_token history_ids n_input p <> OutOfFuel
    /\ forall a' c' history' calls,
         stream_loop fuel a c output_token history_ids n_input p
         = Ok (a', c', history', calls) ->
         exists new,
           history' = history_ids ++ new
           /\ (Z.of_nat (length history' - n_input)
               <= Z.max (Z.of_nat (length history_ids - n_input)) (n_predict p))%Z
           /\ (new <> [] -> ¬ is_end (_tokenizer_config _ a) output_token)
           /\ ends_at_eos (_tokenizer_config _ a) new.
Proof.
  induction fuel as [|fuel IH]; intros a c tok hist n p Hn Hin Hlen Hfuel; simpl;
    destruct (proceed _ _ _ _ _) eqn:Hc.
  - apply proceed_true in Hc as [_ Hc]; [lia | done | done].
  - split; [done|]. intros a' c' hist' calls E. simplify_eq.
    exists []. rewrite app_nil_r. split; [done|]. split; [lia|].
    split; [done|]. by intros i t Hi.
  - apply proceed_true in Hc as [Hend Hc]; [| done | done].
    destruct (_stop_generation _ a).
    { destruct (invoke a c) as [[a1 c1] call] eqn:Hinv.
      split; [done|]. intros a' c' hist' calls E. simplify_eq.
      exists []. rewrite app_nil_r. split; [done|]. split; [lia|].
      split; [done|]. by intros i t Hi. }
    destruct (generate_next_token a tok hist p) as [[a1 t1]| |] eqn:Hnext;
      simpl; [| by split | by destruct (generate_next_token_fuel_free a tok hist p)].
    apply generate_next_token_Ok in Hnext as (_ & _ & Hcfg & _).
    destruct (invoke _ c) as [[a2 c2] call] eqn:Hinv.
    apply invoke_spec in Hinv as (_ & _ & _ & Hcfg2). simpl in Hcfg2.
    destruct (IH a2 c2 t1 (hist ++ [t1]) n p) as [Hfin Hres];
      [done | rewrite length_app; simpl; lia
       | rewrite length_app; simpl; lia | rewrite length_app; simpl; lia |].
    destruct (stream_loop fuel a2 c2 t1 (hist ++ [t1]) n p)
      as [[[[a3 c3] h3] calls3]| |] eqn:Hloop; simpl; [| by split | done].
    split; [done|]. intros a' c' hist' calls E. simplify_eq.
    destruct (Hres _ _ _ _ eq_refl) as (new & -> & Hbound & Hfirst & Hnew).
    exists (t1 :: new). rewrite <- app_assoc. split; [done|].
    rewrite Hcfg2, Hcfg in Hfirst, Hnew.
    split; [rewrite !length_app in Hbound |- *; simpl in Hbound |- *; lia|].
    split; [done|]. by apply ends_at_eos_cons.
  - split; [done|]. intros a' c' hist' calls E. simplify_eq.
    exists []. rewrite app_nil_r. split; [done|]. split; [lia|].
    split; [done|]. by intros i t Hi.
Qed.

(** C7 (amended).  Every decode loop ends.  The loop of the speculative
    sample makes at most [max_iter] (50) passes and stops at the first
    end-of-sequence token chosen, which it does not print.  For
    [0 <= n_predict], both overloads of [api_Generate] end, given fuel
    [n_predict]; the first token comes from the prefill before the bound is
    tested, so between 1 and [max 1 n_predict] tokens are produced, and an
    end id ([eos_token_id] or [im_end_id]) can only be the last of them. *)
Theorem decode_loops_terminate :
  (forall (draft target : Speculative.LanguageModel)
          (tokenize : list byte -> list Z * list Z)
          (detokenize : list Z -> list byte)
          (prompt : list byte) st0 (fuel : nat),
     Speculative.start draft target tokenize prompt = Ok st0 ->
     Z.to_nat Speculative.max_iter <= fuel ->
     Speculative.decode_loop draft target detokenize fuel st0 <> OutOfFuel
     /\ forall st' its,
          Speculative.decode_loop draft target detokenize fuel st0 = Ok (st', its) ->
          length its <= 50
          /\ Forall (fun it => Speculative.put_token it
                               <> Speculative.SPECIAL_EOS_TOKEN) its
          /\ (Speculative.out_token _ _ st' = Speculative.SPECIAL_EOS_TOKEN
              \/ length its = 50)) /\
  (forall (fuel : nat) (a : api) (prompt : list byte) (p : params),
     (0 <= n_predict p < 2 ^ 31)%Z ->
     Z.to_nat (n_predict p) <= fuel ->
     api_Generate m encode decode duration_ms fuel a prompt p <> OutOfFuel
     /\ forall a' output_ids text,
          api_Generate m encode decode duration_ms fuel a prompt p
          = Ok (a', output_ids, text) ->
          (1 <= Z.of_nat (length output_ids) <= Z.max 1 (n_predict p))%Z
          /\ ends_at_eos (_tokenizer_config _ a) output_ids) /\
  (forall (fuel : nat) (a : api) (c : cb) (prompt : list byte) (p : params),
     (0 <= n_predict p < 2 ^ 31)%Z ->
     Z.to_nat (n_predict p) <= fuel ->
     api_Generate_stream m encode duration_ms cb api_callback fuel a c prompt p
     <> OutOfFuel
     /\ forall a' c' history_ids calls,
          api_Generate_stream m encode duration_ms cb api_callback fuel a c prompt p
          = Ok (a', c', history_ids, calls) ->
          exists produced,
            history_ids = encode prompt (n_ctx p) ++ produced
            /\ (1 <= Z.of_nat (length produced) <= Z.max 1 (n_predict p))%Z
            /\ ends_at_eos (_tokenizer_config _ a) produced).
Proof.
  split; [|split].
  - intros draft target tokenize detokenize prompt st0 fuel Hstart Hfuel.
    apply start_iter in Hstart.
    destruct (decode_loop_terminates draft target detokenize fuel st0)
      as [Hfin Hres]; [rewrite Hstart; lia|].
    split; [done|]. intros st' its E.
    destruct (Hres _ _ E) as (Hlen & _ & Hall & Hend).
    rewrite Hstart in Hlen, Hend.
    change (Z.to_nat (Speculative.max_iter - 0)) with 50 in Hlen, Hend.
    done.
  - intros fuel a prompt p Hn Hfuel. unfold api_Generate.
    set (a0 := with_input_token_num m _ _).
    destruct (generate_first_token a0 (encode prompt (n_ctx p)) p)
      as [[a1 token]| |] eqn:Hfirst; simpl;
      [| by split | by destruct (generate_first_token_fuel_free a0 (encode prompt (n_ctx p)) p)].
    apply generate_first_token_Ok in Hfirst as (_ & _ & Hcfg & _).
    destruct (text_loop_terminates fuel a1 token [token]
                (encode prompt (n_ctx p) ++ [token]) p) as [Hfin Hres];
      [done | simpl; lia | simpl; lia |].
    destruct (text_loop fuel a1 token [token] _ p)
      as [[a2 output_ids]| |] eqn:Hloop; simpl; [| by split | done].
    split; [done|]. intros a' output_ids' text E. simplify_eq.
    destruct (Hres _ _ eq_refl) as (new & -> & Hbound & Hend & Hnew).
    rewrite Hcfg in Hend, Hnew. simpl in Hend, Hnew, Hbound |- *.
    split; [lia|]. by apply ends_at_eos_cons.
  - intros fuel a c prompt p Hn Hfuel. unfold api_Generate_stream.
    set (a0 := with_input_token_num m _ _).
    set (input_ids := encode prompt (n_ctx p)).
    destruct (generate_first_token a0 input_ids p)
      as [[a1 token]| |] eqn:Hfirst; simpl;
      [| by split | by destruct (generate_first_token_fuel_free a0 input_ids p)].
    apply generate_first_token_Ok in Hfirst as (_ & _ & Hcfg & _).
    destruct (invoke _ c) as [[a2 c2] call] eqn:Hinv.
    apply invoke_spec in Hinv as (_ & _ & _ & Hcfg2). simpl in Hcfg2.
    assert (length (input_ids ++ [token]) - length input_ids = 1) as Hone
      by (rewrite length_app; simpl; lia).
    destruct (stream_loop_terminates fuel a2 c2 token (input_ids ++ [token])
                (length input_ids) p) as [Hfin Hres];
      [done | rewrite length_app; lia | rewrite Hone; lia | rewrite Hone; lia |].
    destruct (stream_loop fuel a2 c2 token _ _ p)
      as [[[[a3 c3] h3] calls3]| |] eqn:Hloop; simpl; [| by split | done].
    split; [done|]. intros a' c' history_ids calls E. simplify_eq.
    destruct (Hres _ _ _ _ eq_refl) as (new & -> & Hbound & Hend & Hnew).
    rewrite Hcfg2, Hcfg in Hend, Hnew. simpl in Hend, Hnew.
    exists (token :: new). rewrite <- app_assoc. split; [done|].
    rewrite Hone in Hbound.
    rewrite <- app_assoc, length_app in Hbound. simpl in Hbound |- *.
    split; [lia|]. by apply ends_at_eos_cons.
Qed.

End BackendFacts.

(** *** The backend on a concrete object *)

Section BackendExamples.

Import Backend.

#[local] Existing Instance Sampling.example_runtime.

(** A streamed generation whose callback sets the stop flag at token 2. *)
Lemma stream_stopped_at_2 :
  exists a',
    api_Generate_stream successor_model byte_encode example_durations
                        (list Z) (stop_at 2) 10 example_object [] [x00]
                        (greedy_upto 512)
    = Ok (a', [1%Z; 2%Z], [0%Z; 1%Z; 2%Z],
          [ {| cb_token := 1; cb_stop := false |};
            {| cb_token := 2; cb_stop := false |};
            {| cb_token := 2; cb_stop := true |} ]).
Proof. eexists. vm_compute. reflexivity. Qed.

(** C3 fails: the callback sets the stop flag when it is given token 2;
    the loop then invokes it once more with the same id, so the id 2 is
    handed over twice: three invocations for two produced tokens. *)
Lemma stop_delivers_last_token_again :
  exists a',
    api_Generate_stream successor_model byte_encode example_durations
                        (list Z) (stop_at 2) 10 example_object [] [x00]
                        (greedy_upto 512)
    = Ok (a', [1%Z; 2%Z], [0%Z; 1%Z; 2%Z],
          [ {| cb_token := 1; cb_stop := false |};
            {| cb_token := 2; cb_stop := false |};
            {| cb_token := 2; cb_stop := true |} ]).
Proof. exact stream_stopped_at_2. Qed.

Lemma callback_per_token_and_stop_notice_witness :
  let r := replay_callback (list Z) (stop_at 2) []
                           (_new_token_id _ example_object)
                           (_stop_generation _ example_object) [1%Z; 2%Z] in
  [0%Z; 1%Z; 2%Z] = byte_encode [x00] 2048 ++ [1%Z; 2%Z]
  /\ cb_token <$> token_calls (list Z) r = [1%Z; 2%Z]
  /\ proceed successor_model example_object 2 2 (greedy_upto 512)
     && left_stop (list Z) r = true
  /\ [ {| cb_token := 1; cb_stop := false |};
       {| cb_token := 2; cb_stop := false |};
       {| cb_token := 2; cb_stop := true |} ]
     = token_calls (list Z) r
       ++ [{| cb_token := left_token (list Z) r; cb_stop := true |}]
  /\ last [1%Z; 2%Z] = Some (left_token (list Z) r).
Proof.
  destruct stream_stopped_at_2 as [a' E].
  destruct (callback_per_token_and_stop_notice
              successor_model byte_encode example_durations (list Z) (stop_at 2)
              10 example_object [] [x00] (greedy_upto 512) _ _ _ _ E)
    as (produced & Hhistory & _ & Htokens & Hcalls & Hlast & _).
  assert (produced = [1%Z; 2%Z]) as -> by (by injection Hhistory as <-).
  assert (proceed successor_model example_object 2 2 (greedy_upto 512)
          && left_stop (list Z)
               (replay_callback (list Z) (stop_at 2) []
                  (_new_token_id _ example_object)
                  (_stop_generation _ example_object) [1%Z; 2%Z])
          = true) as Hfound by (vm_compute; reflexivity).
  change (default 0%Z (last [1%Z; 2%Z])) with 2%Z in Hcalls.
  change (length [1%Z; 2%Z]) with 2 in Hcalls.
  rewrite Hfound in Hcalls.
  repeat split; try done.
Defined.

(** C7 fails for the bound on new tokens: with [n_predict = 0] the call
    still produces the token of the prefill; with [n_predict = -1] the
    bound is compared as an unsigned value and four tokens are produced,
    up to the end id 4. *)
Lemma first_token_is_produced_beyond_n_predict :
  (exists a' text,
     api_Generate successor_model byte_encode TextStreamer.concat_detokenize
                  example_durations 10 example_object [x00] (greedy_upto 0)
     = Ok (a', [1%Z], text))
  /\ (exists a' text,
        api_Generate successor_model byte_encode TextStreamer.concat_detokenize
                     example_durations 10 example_object [x00] (greedy_upto (-1))
        = Ok (a', [1%Z; 2%Z; 3%Z; 4%Z], text)).
Proof. split; eexists _, _; vm_compute; reflexivity. Qed.

(** The three loops on concrete inputs: the sample on the prompt of one
    byte, both overloads of [api_Generate] with [n_predict = 2]. *)
Lemma decode_loops_terminate_witness :
  (exists st0,
     Speculative.start Speculative.draft_example Speculative.target_example
                       Speculative.byte_tokenize [x01] = Ok st0
     /\ Speculative.decode_loop Speculative.draft_example
          Speculative.target_example TextStreamer.concat_detokenize 50 st0
        <> OutOfFuel)
  /\ (api_Generate successor_model byte_encode TextStreamer.concat_detokenize
                   example_durations 2 example_object [x00] (greedy_upto 2)
      <> OutOfFuel
      /\ forall a' output_ids text,
           api_Generate successor_model byte_encode TextStreamer.concat_detokenize
                        example_durations 2 example_object [x00] (greedy_upto 2)
           = Ok (a', output_ids, text) ->
           (1 <= Z.of_nat (length output_ids) <= 2)%Z
           /\ ends_at_eos example_config output_ids)
  /\ api_Generate_stream successor_model byte_encode example_durations
                         (list Z) (stop_at 2) 2 example_object [] [x00]
                         (greedy_upto 2)
     <> OutOfFuel.
Proof.
  destruct (decode_loops_terminate
              successor_model byte_encode TextStreamer.concat_detokenize
              example_durations (list Z) (stop_at 2))
    as (Hsample & Htext & Hstream).
  split; [|split].
  - assert (exists st0,
              Speculative.start Speculative.draft_example
                Speculative.target_example Speculative.byte_tokenize [x01]
              = Ok st0) as [st0 Hstart]
      by (eexists; vm_compute; reflexivity).
    exists st0. split; [exact Hstart|].
    destruct (Hsample _ _ _ TextStreamer.concat_detokenize _ _ 50 Hstart)
      as [Hfin _]; [vm_compute; lia | exact Hfin].
  - apply (Htext 2 example_object [x00] (greedy_upto 2)); simpl; lia.
  - apply (Hstream 2 example_object [] [x00] (greedy_upto 2)); simpl; lia.
Defined.

(** A reset of the loaded object, whose load duration is 7/2, and the
    statistics after the streamed generation stopped at token 2. *)
Lemma reset_zeroes_statistics_only_on_reset_witness :
  (exists a',
     api_Reset successor_model example_object = Ok a'
     /\ _perf_statistic _ a' = zeroed
     /\ _api_status _ a' = loaded)
  /\ (exists a' c' history_ids calls,
        api_Generate_stream successor_model byte_encode example_durations
                            (list Z) (stop_at 2) 10 example_object [] [x00]
                            (greedy_upto 512)
        = Ok (a', c', history_ids, calls)
        /\ llm_load_duration (_perf_statistic _ a') = (7 # 2)%Q
        /\ (1 <= generated_token_num (_perf_statistic _ a'))%Z).
Proof.
  destruct (reset_zeroes_statistics_only_on_reset
              successor_model byte_encode example_durations (list Z) (stop_at 2))
    as [Hreset Hgenerate].
  split.
  - destruct (Hreset example_object _ eq_refl)
      as (a' & E & Hs & _ & _ & Hst).
    exists a'. by repeat split.
  - destruct stream_stopped_at_2 as [a' E].
    destruct (Hgenerate _ _ _ _ _ _ _ _ _ E) as ((Hload & _) & _ & Hgen & _).
    eexists _, _, _, _. split; [exact E|]. split; [exact Hload | exact Hgen].
Defined.

End BackendExamples.

(** * Further properties *)

(** ** The streamer and [main] *)

Section StreamerBounds.

Import TextStreamer.

Variable detokenize : list Z -> list byte.

Lemma string_view_None (text : list byte) (n : nat) :
  string_view text n = None <-> length text < n.
Proof.
  unfold string_view. destruct (n <=? length text) eqn:E.
  - apply Nat.leb_le in E. split; [done | lia].
  - apply Nat.leb_gt in E. by split.
Qed.

(** X1.  [put] reads outside the decoded text exactly when the text is
    not withheld (it ends in a newline, or does not end in the marker) and
    is shorter than [print_len]; [end] does so exactly when the text of
    the cache is shorter than [print_len]. *)
Theorem streamer_reads_outside_iff (s : t) (token : Z) :
  let T := detokenize (token_cache s ++ [token]) in
  (put detokenize s token = None <->
     ([newline] `suffix_of` T \/ ¬ replacement_marker `suffix_of` T)
     /\ length T < print_len s)
  /\ (end_ detokenize s = None <->
        length (detokenize (token_cache s)) < print_len s).
Proof.
  intros T. split.
  - unfold put. fold T.
    destruct (ends_with_newline T) eqn:Enl.
    + apply ends_with_newline_suffix in Enl.
      destruct (string_view T (print_len s)) as [out|] eqn:Ev; simpl.
      * split; [done|]. intros [_ Hlt].
        apply string_view_None in Hlt. congruence.
      * apply string_view_None in Ev. split; [by auto | done].
    + apply ends_with_newline_not in Enl.
      destruct (ends_with_marker T) eqn:Em.
      * apply ends_with_marker_suffix in Em.
        split; [done|]. by intros [[? | ?] _].
      * apply ends_with_marker_not in Em.
        destruct (string_view T (print_len s)) as [out|] eqn:Ev; simpl.
        -- split; [done|]. intros [_ Hlt].
           apply string_view_None in Hlt. congruence.
        -- apply string_view_None in Ev. split; [by auto | done].
  - unfold end_.
    destruct (string_view _ (print_len s)) as [out|] eqn:Ev; simpl.
    + split; [done|]. intros Hlt. apply string_view_None in Hlt. congruence.
    + apply string_view_None in Ev. by split.
Qed.

Lemma run_app (cs1 cs2 : list call) :
  forall s s1 out1 s2 out2,
    run detokenize s cs1 = Some (s1, out1) ->
    run detokenize s1 cs2 = Some (s2, out2) ->
    run detokenize s (cs1 ++ cs2) = Some (s2, out1 ++ out2).
Proof.
  induction cs1 as [|c cs1 IH]; intros s s1 out1 s2 out2 E1 E2.
  - by simplify_eq/=.
  - simpl in E1.
    destruct (step detokenize s c) as [[sa outa]|] eqn:Ea; simpl in E1; [|done].
    destruct (run detokenize sa cs1) as [[sb outb]|] eqn:Eb; simpl in E1; [|done].
    injection E1 as <- <-.
    rewrite <- app_comm_cons, <- app_assoc.
    eapply run_cons; [done|]. by eapply IH.
Qed.

End StreamerBounds.

Section MainOutput.

Import Speculative.

Variables draft target : LanguageModel.
Variable tokenize : list byte -> list Z * list Z.
Variable detokenize : list Z -> list byte.

#[local] Abbreviation body := (Speculative.body draft target detokenize).
#[local] Abbreviation decode_loop := (Speculative.decode_loop draft target detokenize).
#[local] Abbreviation loop_state := (Speculative.loop_state draft target).

(** What one pass does to the streamer and to the two requests. *)
Lemma body_effects (st st' : loop_state) (it : iteration) :
  body st = Ok (st', it) ->
  put_token it = out_token _ _ st
  /\ (exists out,
        TextStreamer.put detokenize (text_streamer _ _ st) (out_token _ _ st)
        = Some (text_streamer _ _ st', out)
        /\ cout _ _ st' = cout _ _ st ++ out)
  /\ lm _ _ st' = decode_step (lm _ _ st) (out_token _ _ st) tiny_llama_kv_size
  /\ lm_target _ _ st'
     = decode_step (lm_target _ _ st) (target_out_token _ _ st) llama_kv_size.
Proof.
  unfold Speculative.body. intros E.
  apply bind_Ok in E as ([streamer out] & Hput & E).
  apply bind_Ok in E as (arg_max & _ & E).
  apply of_option_Ok in Hput. injection E as <- <-. simpl.
  split; [done|]. split; [|done]. by exists out.
Qed.

Lemma decode_loop_cout (fuel : nat) :
  forall (st st' : loop_state) (its : list iteration),
    decode_loop fuel st = Ok (st', its) ->
    exists out,
      TextStreamer.run detokenize (text_streamer _ _ st)
                       (TextStreamer.Put <$> (put_token <$> its))
      = Some (text_streamer _ _ st', out)
      /\ cout _ _ st' = cout _ _ st ++ out.
Proof.
  induction fuel as [|fuel IH]; intros st st' its E;
    rewrite decode_loop_unfold in E;
    destruct (negb _ && _) eqn:Hc; try done.
  - injection E as <- <-. exists []. by rewrite app_nil_r.
  - apply bind_Ok in E as ([st1 it] & Hbody & E).
    apply bind_Ok in E as ([st2 its2] & Hloop & E). injection E as <- <-.
    apply body_effects in Hbody as (Hit & (out1 & Hput & Hcout) & _).
    destruct (IH _ _ _ Hloop) as (out2 & Hrun & Hcout2).
    exists (out1 ++ out2). rewrite !fmap_cons, Hit. split.
    + eapply run_cons; [exact Hput | exact Hrun].
    + by rewrite Hcout2, Hcout, app_assoc.
  - injection E as <- <-. exists []. by rewrite app_nil_r.
Qed.

(** X2.  The text a finished [main] writes to standard output is what the
    streamer writes for the tokens it was given: one [put] per pass of the
    loop, in order, from the initial streamer, then [end]. *)
Theorem main_prints_the_stream
    (fuel : nat) (prompt : list byte) (its : list iteration) (out : list byte) :
  main draft target tokenize detokenize fuel prompt = Ok (its, out) ->
  TextStreamer.stream detokenize (put_token <$> its) = Some out.
Proof.
  unfold main. intros E.
  apply bind_Ok in E as (st0 & Hstart & E).
  apply bind_Ok in E as ([st1 its1] & Hloop & E).
  apply bind_Ok in E as ([s out1] & Hend & E). injection E as <- <-.
  apply of_option_Ok in Hend.
  destruct (decode_loop_cout _ _ _ _ Hloop) as (out0 & Hrun & Hcout).
  assert (text_streamer _ _ st0 = TextStreamer.init /\ cout _ _ st0 = [])
    as [Hinit Hnil].
  { unfold start in Hstart. destruct (tokenize prompt) as [ids mask].
    apply bind_Ok in Hstart as (last_pos & _ & Hstart).
    apply bind_Ok in Hstart as (first & _ & Hstart).
    apply bind_Ok in Hstart as (target_choice & _ & Hstart).
    by injection Hstart as <-. }
  rewrite Hinit in Hrun. rewrite Hnil in Hcout. simpl in Hcout.
  unfold TextStreamer.stream.
  erewrite run_app; [| exact Hrun |].
  - simpl. by rewrite Hcout.
  - simpl. rewrite Hend. simpl. by rewrite app_nil_r.
Qed.

End MainOutput.

Section LoopTensors.

Import Speculative SpeculativeSteps.

Variables draft target : LanguageModel.
Variable tokenize : list byte -> list Z * list Z.
Variable detokenize : list Z -> list byte.

#[local] Abbreviation body := (Speculative.body draft target detokenize).
#[local] Abbreviation decode_loop := (Speculative.decode_loop draft target detokenize).
#[local] Abbreviation loop_state := (Speculative.loop_state draft target).

(** The input tensors of a request after one decode step. *)
Lemma decode_step_inputs {m : LanguageModel} (r : InferRequest m) token kv_size :
  input_ids (decode_step r token kv_size) = [token]
  /\ attention_mask (decode_step r token kv_size)
     = replicate (S (length (attention_mask r))) 1%Z
  /\ position_ids (decode_step r token kv_size)
     = [(Z.of_nat (S (length (attention_mask r))) - 2)%Z].
Proof.
  unfold decode_step, infer, set_key_values. simpl.
  by destruct (forward m _ _ _ _).
Qed.

Lemma stepped_once {m : LanguageModel} (r : InferRequest m) token kv_size :
  stepped r (decode_step r token kv_size) 1 token.
Proof.
  destruct (decode_step_inputs r token kv_size) as (E1 & E2 & E3).
  unfold stepped. rewrite E1, E2, E3.
  by replace (length (attention_mask r) + 1) with (S (length (attention_mask r)))
    by lia.
Qed.

Lemma stepped_more {m : LanguageModel} (r r1 r' : InferRequest m) k token token' kv_size :
  r1 = decode_step r token kv_size ->
  stepped r1 r' k token' ->
  stepped r r' (S k) token'.
Proof.
  intros -> (E1 & E2 & E3).
  destruct (decode_step_inputs r token kv_size) as (_ & F2 & _).
  rewrite F2, length_replicate in E2, E3.
  unfold stepped.
  by replace (length (attention_mask r) + S k)
    with (S (length (attention_mask r)) + k) by lia.
Qed.

(** X3.  After a finished loop of [k >= 1] passes, each request holds a
    single input id (for the draft the last token given to the streamer,
    for the target its unchanged [target_out_token]), an attention mask of
    [k] more entries than before the loop, all ones, and the single
    position id "mask length - 2". *)
Theorem loop_grows_masks (fuel : nat) :
  forall (st st' : loop_state) (its : list iteration),
    decode_loop fuel st = Ok (st', its) ->
    its <> [] ->
    (exists token,
       last (put_token <$> its) = Some token
       /\ stepped (lm _ _ st) (lm _ _ st') (length its) token)
    /\ stepped (lm_target _ _ st) (lm_target _ _ st') (length its)
               (target_out_token _ _ st).
Proof.
  induction fuel as [|fuel IH]; intros st st' its E Hne;
    rewrite decode_loop_unfold in E;
    destruct (negb _ && _) eqn:Hc; try done;
    try (by injection E as <- <-).
  apply bind_Ok in E as ([st1 it] & Hbody & E).
  apply bind_Ok in E as ([st2 its2] & Hloop & E). injection E as <- <-.
  pose proof (body_Ok _ _ _ _ _ _ Hbody) as (_ & _ & _ & Htok & _).
  apply body_effects in Hbody as (Hit & _ & Hlm & Htarget).
  destruct its2 as [|it2 its2].
  - assert (st2 = st1) as ->.
    { rewrite decode_loop_unfold in Hloop.
      destruct (negb (out_token draft target st1 =? SPECIAL_EOS_TOKEN)%Z
                && (iter draft target st1 <? max_iter)%Z).
      - destruct fuel; simpl in Hloop; [done|].
        apply bind_Ok in Hloop as ([sa ia] & _ & Hloop).
        apply bind_Ok in Hloop as ([sb ib] & _ & Hloop). by injection Hloop.
      - by injection Hloop. }
    simpl. split.
    + exists (out_token _ _ st). rewrite Hit. split; [done|].
      rewrite Hlm. apply stepped_once.
    + rewrite Htarget. apply stepped_once.
  - destruct (IH _ _ _ Hloop) as [(token & Hlast & Hd) Ht]; [done|].
    split.
    + exists token. split.
      * rewrite fmap_cons. rewrite fmap_cons in Hlast.
        by rewrite fmap_cons, last_cons, Hlast.
      * eapply stepped_more; [exact Hlm | exact Hd].
    + rewrite Htok in Ht. eapply stepped_more; [exact Htarget | exact Ht].
Qed.

(** X4.  If the first token chosen by the draft is the end-of-sequence
    token, [main] makes no pass of the loop and prints the text of the
    empty cache followed by a newline, whatever the fuel. *)
Theorem main_with_eos_first (fuel : nat) (prompt : list byte) st0 :
  start draft target tokenize prompt = Ok st0 ->
  out_token _ _ st0 = SPECIAL_EOS_TOKEN ->
  main draft target tokenize detokenize fuel prompt
  = Ok ([], detokenize [] ++ [TextStreamer.newline]).
Proof.
  intros Hstart Heos. unfold main. rewrite Hstart. simpl.
  rewrite decode_loop_unfold, Heos. simpl.
  assert (text_streamer _ _ st0 = TextStreamer.init /\ cout _ _ st0 = [])
    as [-> ->].
  { unfold start in Hstart. destruct (tokenize prompt) as [ids mask].
    apply bind_Ok in Hstart as (last_pos & _ & Hstart).
    apply bind_Ok in Hstart as (first & _ & Hstart).
    apply bind_Ok in Hstart as (target_choice & _ & Hstart).
    by injection Hstart as <-. }
  done.
Qed.

End LoopTensors.

Section MainExamples.

Import Speculative SpeculativeSteps.

Lemma main_prints_the_stream_witness :
  TextStreamer.stream TextStreamer.concat_detokenize
    (put_token <$> [ {| draft_input := 3; target_input := 2; put_token := 3 |};
                     {| draft_input := 4; target_input := 2; put_token := 4 |} ])
  = Some [xef; xbf; xbd; x20; x63; x0a].
Proof.
  apply (main_prints_the_stream draft_example target_example byte_tokenize
           TextStreamer.concat_detokenize 50 [x01]).
  vm_compute. reflexivity.
Defined.

(** The loop of two passes on the prompt of one byte. *)
Lemma example_loop :
  exists st0 st' its,
    start draft_example target_example byte_tokenize [x01] = Ok st0
    /\ decode_loop draft_example target_example TextStreamer.concat_detokenize
                   50 st0 = Ok (st', its)
    /\ put_token <$> its = [3%Z; 4%Z]
    /\ target_out_token _ _ st0 = 2%Z.
Proof.
  eexists _, _, _. split; [vm_compute; reflexivity|].
  split; [vm_compute; reflexivity|]. by repeat split.
Qed.

Lemma loop_grows_masks_witness :
  exists st0 st',
    start draft_example target_example byte_tokenize [x01] = Ok st0
    /\ stepped (lm _ _ st0) (lm _ _ st') 2 4
    /\ stepped (lm_target _ _ st0) (lm_target _ _ st') 2 2.
Proof.
  destruct example_loop as (st0 & st' & its & Hstart & Hloop & Hput & Htok).
  exists st0, st'. split; [exact Hstart|].
  assert (length its = 2) as Hlen
    by (apply (f_equal length) in Hput; by rewrite length_fmap in Hput).
  destruct (loop_grows_masks draft_example target_example
              TextStreamer.concat_detokenize 50 st0 st' its Hloop)
    as [(token & Hlast & Hd) Ht].
  - by destruct its.
  - rewrite Hlen in Hd, Ht. rewrite Htok in Ht. rewrite Hput in Hlast.
    injection Hlast as <-. split; [exact Hd | exact Ht].
Defined.

Lemma main_with_eos_first_witness :
  main draft_example target_example byte_tokenize
       TextStreamer.concat_detokenize 50 [x04]
  = Ok ([], [x0a]).
Proof.
  assert (exists st0,
            start draft_example target_example byte_tokenize [x04] = Ok st0
            /\ out_token _ _ st0 = SPECIAL_EOS_TOKEN) as (st0 & Hstart & Heos).
  { eexists. split; [vm_compute; reflexivity | reflexivity]. }
  exact (main_with_eos_first draft_example target_example byte_tokenize
           TextStreamer.concat_detokenize 50 [x04] st0 Hstart Heos).
Defined.

End MainExamples.
